(** * RedisCache: the namespaced cache over a Redis store
    (02_Util/src/cache/redis.ts), embedded with explicit state passing.

    The store is a value of type [redis]; every method of the class is a
    function of the store it is called on.  A JavaScript promise is
    represented by the way it settles. *)

From stdpp Require Import strings gmap pretty.
From Stdlib Require Import Ascii.

(** ** Promises and blocking calls *)

Inductive error : Type :=
  | StoreUnavailable   (* the client rejects: connection or backend fault *)
  | FormatError.       (* JSON.parse throws inside a [then] callback *)

(** A promise, by its settlement. *)
Inductive promise (A : Type) : Type :=
  | Fulfilled (a : A)
  | Rejected (e : error).
Arguments Fulfilled {A} a.
Arguments Rejected {A} e.

(** [p.then(f)]: [f] runs on fulfilment and either returns or throws; a
    rejection passes through untouched. *)
Definition then_ {A B : Type} (p : promise A) (f : A -> promise B) : promise B :=
  match p with
  | Fulfilled a => f a
  | Rejected e => Rejected e
  end.

(** What a blocking call site sees: a returned value or a thrown error. *)
Inductive completion (A : Type) : Type :=
  | Returns (a : A)
  | Throws (e : error).
Arguments Returns {A} a.
Arguments Throws {A} e.

(** [deasyncPromise(p)] spins until [p] settles, then returns its value or
    throws its rejection reason. *)
Definition deasyncPromise {A : Type} (p : promise A) : completion A :=
  match p with
  | Fulfilled a => Returns a
  | Rejected e => Throws e
  end.

(** ** The backing store *)

Record entry : Type := Entry {
  payload : string;
  expireAt : option nat      (* absolute second at which the entry dies *)
}.

Record redis : Type := Redis {
  db : gmap string entry;
  now : nat;                 (* the store's clock, in whole seconds *)
  up : bool                  (* whether the client connection works *)
}.

(** A key-space notification: channel and message. *)
Definition notification : Type := (string * string)%type.

Definition keyspace (key : string) : string := "__keyspace@0__:" +:+ key.

Definition live (t : nat) (e : entry) : bool :=
  match expireAt e with
  | None => true
  | Some d => (t <? d)%nat
  end.

Definition lookup_live (r : redis) (key : string) : option entry :=
  match db r !! key with
  | Some e => if live (now r) e then Some e else None
  | None => None
  end.

(** The client of the [redis] package ([createClient] and the commands
    [get], [set], [del], [exists] of the object it returns) is imported, not
    defined, by the sources.  Its four commands are modelled from section
    4.2 of the specification: a connectivity fault rejects with
    store-unavailable, an entry past its expiry reads as never written
    (section 3), and a write or a delete of a key is published on the key's
    notification channel under the name of the command (section 3,
    MutationEvent).  An expiry is a positive number of whole seconds. *)

(** Modelled from the spec: [client.get(key)] of the imported package; the
    current payload, or null when the entry is missing or expired. *)
Definition client_get (r : redis) (key : string) : promise (option string) :=
  if up r then Fulfilled (payload <$> lookup_live r key)
  else Rejected StoreUnavailable.

(** Modelled from the spec: [client.exists(key)] of the imported package;
    the number of live entries under the key. *)
Definition client_exists (r : redis) (key : string) : promise nat :=
  if up r then
    Fulfilled (match lookup_live r key with Some _ => 1 | None => 0 end)
  else Rejected StoreUnavailable.

(** Modelled from the spec: [client.del(key)] of the imported package; the
    number of entries removed, and the notification of the removal. *)
Definition client_del (r : redis) (key : string)
  : redis * promise nat * list notification :=
  if up r then
    match lookup_live r key with
    | Some _ =>
        (Redis (delete key (db r)) (now r) (up r), Fulfilled 1,
         [(keyspace key, "del")])
    | None => (r, Fulfilled 0, [])
    end
  else (r, Rejected StoreUnavailable, []).

(** Modelled from the spec: [client.set(key, value, { EX, NX })] of the
    imported package; "OK" after a write, null when [NX] finds a live
    entry.  A write with an expiry also publishes the expiry being set. *)
Definition client_set (r : redis) (key value : string)
    (EX : option positive) (NX : bool)
  : redis * promise (option string) * list notification :=
  if up r then
    if NX && bool_decide (is_Some (lookup_live r key)) then
      (r, Fulfilled None, [])
    else
      (Redis (<[key := Entry value ((λ s, (now r + Pos.to_nat s)%nat) <$> EX)]> (db r))
             (now r) (up r),
       Fulfilled (Some "OK"),
       (keyspace key, "set")
         :: match EX with
            | Some _ => [(keyspace key, "expire")]
            | None => []
            end)
  else (r, Rejected StoreUnavailable, []).

(** ** The class *)

(** [namespace || "default"]: an absent or an empty namespace is falsy. *)
Definition orDefault (namespace : option string) : string :=
  match namespace with
  | Some n => if String.eqb n "" then "default" else n
  | None => "default"
  end.

(** The two lines every method starts with:
    [namespace = namespace || "default"; key = `${namespace}:${key}`]. *)
Definition prefixed (namespace : option string) (key : string) : string :=
  orDefault namespace +:+ ":" +:+ key.

(** What a read hands back: the stored string as it is, or the instance the
    class constructor builds from it. *)
Inductive value (T : Type) : Type :=
  | Plain (s : string)
  | Instance (t : T).
Arguments Plain {T} s.
Arguments Instance {T} t.

(** [result === "OK"] *)
Definition isOK (result : string) : bool := String.eqb result "OK".

(** [if (result)] on a [string | null]: null and the empty string are falsy. *)
Definition truthy (result : option string) : option string :=
  match result with
  | Some s => if String.eqb s "" then None else Some s
  | None => None
  end.

Module RedisCache.
Section Methods.
Context {T : Type}.

(** [plainToInstance(classConstructor(), JSON.parse(result))] as a function
    of the stored string: [None] when [JSON.parse] throws, [Some None] when
    the string parses to null, which [plainToInstance] hands back as it is,
    [Some (Some t)] for an instance. *)
Definition classConstructor : Type := string -> option (option T).

Definition exists_ (r : redis) (key : string) (namespace : option string)
  : promise bool :=
  let key := prefixed namespace key in
  then_ (client_exists r key) (λ result, Fulfilled (result =? 1)%nat).

Definition remove (r : redis) (key : string) (namespace : option string)
  : redis * promise bool * list notification :=
  let key := prefixed namespace key in
  let '(r', p, ns) := client_del r key in
  (r', then_ p (λ result, Fulfilled (result =? 1)%nat), ns).

Definition get (r : redis) (key : string) (namespace : option string)
    (cc : option classConstructor) : promise (option (value T)) :=
  let key := prefixed namespace key in
  then_ (client_get r key) (λ result,
    match truthy result with
    | Some s =>
        match cc with
        | Some build =>
            match build s with
            | Some t => Fulfilled (Instance <$> t)
            | None => Rejected FormatError
            end
        | None => Fulfilled (Some (Plain s))
        end
    | None => Fulfilled None
    end).

Definition getSync (r : redis) (key : string) (namespace : option string)
    (cc : option classConstructor) : completion (option (value T)) :=
  let key := prefixed namespace key in
  deasyncPromise (then_ (client_get r key) (λ result,
    match truthy result with
    | Some s =>
        match cc with
        | Some build =>
            match build s with
            | Some t => Fulfilled (Instance <$> t)
            | None => Rejected FormatError
            end
        | None => Fulfilled (Some (Plain s))
        end
    | None => Fulfilled None
    end)).

Definition set (r : redis) (key value : string) (namespace : option string)
    (expireSeconds : option positive)
  : redis * promise bool * list notification :=
  let key := prefixed namespace key in
  let '(r', p, ns) := client_set r key value expireSeconds false in
  (r', then_ p (λ result,
         match truthy result with
         | Some s => Fulfilled (isOK s)
         | None => Fulfilled false
         end), ns).

Definition setIfNotExist (r : redis) (key value : string)
    (namespace : option string) (expireSeconds : option positive)
  : redis * promise bool * list notification :=
  let key := prefixed namespace key in
  let '(r', p, ns) := client_set r key value expireSeconds true in
  (r', then_ p (λ result,
         match truthy result with
         | Some s => Fulfilled (isOK s)
         | None => Fulfilled false
         end), ns).

Definition setSync (r : redis) (key value : string)
    (namespace : option string) (expireSeconds : option positive)
  : redis * completion bool * list notification :=
  let key := prefixed namespace key in
  let '(r', p, ns) := client_set r key value expireSeconds false in
  (r', deasyncPromise (then_ p (λ result,
         match truthy result with
         | Some s => Fulfilled (isOK s)
         | None => Fulfilled false
         end)), ns).

(** *** [onChange]

    One call of [onChange] leaves behind a closure shared by the two
    callbacks it registers (the subscription listener and the timer
    callback) and the promise it returned.  [waitHandle] is that closure
    together with what the callbacks have done so far. *)
Record waitHandle : Type := WaitHandle {
  h_key : string;            (* [key], after the prefixing of line 51 *)
  h_namespace : string;      (* [namespace], after the defaulting of line 50 *)
  h_cc : option classConstructor;
  h_channel : string;        (* the channel [subscriber] is subscribed to *)
  h_due : nat;               (* the second at which the timer is due *)
  settled : option (promise (option (value T)));
                             (* what [resolve] was first called with *)
  quits : nat;               (* calls of [subscriber.quit()] so far *)
  timer : bool;              (* the timer callback has not run yet *)
  reads : list string        (* storage keys the callbacks sent GET for *)
}.

(** [resolve(p)]: only the first call decides the promise; the promise
    then follows [p]. *)
Definition resolve (h : waitHandle) (p : promise (option (value T)))
  : waitHandle :=
  match settled h with
  | None =>
      WaitHandle (h_key h) (h_namespace h) (h_cc h) (h_channel h) (h_due h)
                 (Some p) (quits h) (timer h) (reads h)
  | Some _ => h
  end.

(** [subscriber.quit()] *)
Definition quit (h : waitHandle) : waitHandle :=
  WaitHandle (h_key h) (h_namespace h) (h_cc h) (h_channel h) (h_due h)
             (settled h) (S (quits h)) (timer h) (reads h).

(** [this.get(key, namespace, classConstructor)] inside a callback: the
    closure's [key] and [namespace] are handed to [get], which prefixes
    once more; the storage key it reads is logged. *)
Definition this_get (r : redis) (h : waitHandle)
  : waitHandle * promise (option (value T)) :=
  (WaitHandle (h_key h) (h_namespace h) (h_cc h) (h_channel h) (h_due h)
              (settled h) (quits h) (timer h)
              (reads h ++ [prefixed (Some (h_namespace h)) (h_key h)]),
   get r (h_key h) (Some (h_namespace h)) (h_cc h)).

(** The listener passed to [subscriber.subscribe], as a function of its
    second parameter, the one the source names [message]; the first is not
    used. *)
Definition listener (r : redis) (h : waitHandle) (message : string)
  : waitHandle :=
  if String.eqb message "set" then
    let '(h, p) := this_get r h in
    quit (resolve h p)
  else if String.eqb message "del" || String.eqb message "expire" then
    quit (resolve h (Fulfilled None))
  else h.

(** The callback passed to [setTimeout]. *)
Definition onTimeout (r : redis) (h : waitHandle) : waitHandle :=
  let '(h, p) := this_get r h in
  quit (resolve h p).

(** The subscriber listens on [`__keyspace@0__:${key}`] and the timer is
    set to [waitSeconds * 1000] milliseconds from now. *)
Definition onChange (r : redis) (key : string) (waitSeconds : nat)
    (namespace : option string) (cc : option classConstructor)
  : waitHandle :=
  let key := prefixed namespace key in
  let namespace := orDefault namespace in
  WaitHandle key namespace cc (keyspace key) (now r + waitSeconds)
             None 0 true [].

(** *** The environment of a pending [onChange]

    While the promise is pending the store keeps running: other callers
    write and delete, the store publishes notifications, seconds pass,
    the connection drops and comes back, and the timer falls due. *)
Inductive call : Type :=
  | CallSet (key value : string) (namespace : option string)
            (expireSeconds : option positive)
  | CallSetIfNotExist (key value : string) (namespace : option string)
                      (expireSeconds : option positive)
  | CallRemove (key : string) (namespace : option string).

Inductive event : Type :=
  | Publish (channel message : string)  (* the store publishes a message *)
  | Call (c : call)                     (* another caller uses the cache *)
  | Elapse                              (* one second passes *)
  | Due                                 (* the event loop runs due timers *)
  | Link (b : bool).                    (* the connection drops or returns *)

Record world : Type := World { store : redis; handle : waitHandle }.

Definition perform (r : redis) (c : call) : redis * list notification :=
  match c with
  | CallSet key value namespace expireSeconds =>
      let '(r', _, ns) := set r key value namespace expireSeconds in (r', ns)
  | CallSetIfNotExist key value namespace expireSeconds =>
      let '(r', _, ns) := setIfNotExist r key value namespace expireSeconds in
      (r', ns)
  | CallRemove key namespace =>
      let '(r', _, ns) := remove r key namespace in (r', ns)
  end.

(** The subscriber of [onChange] is what [createClient()] hands back, a
    client that is not connected; [onChange] never calls [connect] on it
    (the constructor does, on [this._client] only, line 34). *)
Definition subscriberConnected : bool := false.

(** A message reaches the listener when the subscriber is connected, has
    not quit, and the message is published on the subscribed channel.  The
    imported client calls a listener with the message first and the channel
    second, so the second parameter of the listener, the one the source
    names [message] and switches on, is bound to the channel. *)
Definition deliver (r : redis) (h : waitHandle) (n : notification)
  : waitHandle :=
  if subscriberConnected && (quits h =? 0)%nat
     && String.eqb (fst n) (h_channel h)
  then listener r h (fst n)
  else h.

(** The timer callback runs once, at or after the second it is due. *)
Definition fire (r : redis) (h : waitHandle) : waitHandle :=
  if timer h && (h_due h <=? now r)%nat then
    onTimeout r
      (WaitHandle (h_key h) (h_namespace h) (h_cc h) (h_channel h) (h_due h)
                  (settled h) (quits h) false (reads h))
  else h.

Definition step (w : world) (e : event) : world :=
  let r := store w in
  match e with
  | Publish channel message => World r (deliver r (handle w) (channel, message))
  | Call c =>
      let '(r', ns) := perform r c in
      World r' (foldl (deliver r') (handle w) ns)
  | Elapse => World (Redis (db r) (S (now r)) (up r)) (handle w)
  | Due => World r (fire r (handle w))
  | Link b => World (Redis (db r) (now r) b) (handle w)
  end.

Definition run (w : world) (es : list event) : world := foldl step w es.

End Methods.
End RedisCache.

Import RedisCache.

Arguments deliver : simpl never.

(** ** Vocabulary for the properties of [onChange] *)

Section Handle.
Context {T : Type}.
Implicit Types (h : waitHandle (T:=T)) (w : world (T:=T)) (r : redis).

(** The closure variables never change once [onChange] has returned. *)
Definition same_closure h h' : Prop :=
  h_key h' = h_key h ∧ h_namespace h' = h_namespace h ∧ h_cc h' = h_cc h
  ∧ h_channel h' = h_channel h ∧ h_due h' = h_due h.

(** A pending handle holds its subscription and its timer; a settled one
    has quit its subscriber at least once. *)
Definition coherent h : Prop :=
  match settled h with
  | None => quits h = 0 ∧ timer h = true
  | Some _ => 1 ≤ quits h
  end.


(** The world as [onChange] returns; [run] from it reaches every world the
    call can get into. *)
Definition started (r : redis) (key : string) (waitSeconds : nat)
    (namespace : option string) (cc : option (classConstructor (T:=T)))
  : world (T:=T) :=
  World r (onChange r key waitSeconds namespace cc).

(** Messages on which the listener does something. *)
Definition resolving (message : string) : bool :=
  String.eqb message "set" || String.eqb message "del"
  || String.eqb message "expire".


End Handle.

(** ** Vocabulary for the properties of the store operations *)

(** The store as it stands [seconds] later, nothing else having happened. *)
Definition later (seconds : nat) (r : redis) : redis :=
  Redis (db r) (now r + seconds) (up r).

(** A string without a colon. *)
Fixpoint colonFree (s : string) : bool :=
  match s with
  | EmptyString => true
  | String c rest => negb (Ascii.eqb c ":"%char) && colonFree rest
  end.

(** What one call of [onChange] can have done so far: the listener and the
    timer callback run at most once each, every run quits the subscriber,
    and each GET goes to the key [get] derives from the closure. *)
Definition bounded {T : Type} (h : waitHandle (T:=T)) : Prop :=
  quits h + (if timer h then 1 else 0) ≤ 2
  ∧ length (reads h) ≤ quits h
  ∧ Forall (λ k, k = prefixed (Some (h_namespace h)) (h_key h)) (reads h).

(** * The schema processor (00_Base/json-schema-processor.js)

    The functions that work on the parsed schema.  A parsed JSON text is a
    tree: the members of an object are listed in the order [for ... in]
    visits them, without repeated keys.  A character of a string stands for
    one character of the JavaScript string.  Numbers matter only through
    being zero or not.  A thrown TypeError is [None]. *)

Module SchemaProcessor.

#[local] Unset Elimination Schemes.
Inductive json : Type :=
  | JNull
  | JBool (b : bool)
  | JNumber (n : Z)
  | JString (s : string)
  | JArray (items : list json)
  | JObject (members : list (string * json)).
#[local] Set Elimination Schemes.

(** [typeof v === 'object'] *)
Definition isObject (v : json) : bool :=
  match v with
  | JNull | JArray _ | JObject _ => true
  | JBool _ | JNumber _ | JString _ => false
  end.

(** [if (v)] *)
Definition truthyValue (v : json) : bool :=
  match v with
  | JNull => false
  | JBool b => b
  | JNumber n => negb (n =? 0)%Z
  | JString s => negb (String.eqb s "")
  | JArray _ | JObject _ => true
  end.

(** [node[key]] on an object; [None] is undefined. *)
Fixpoint property (members : list (string * json)) (key : string)
  : option json :=
  match members with
  | [] => None
  | (k, v) :: rest => if String.eqb k key then Some v else property rest key
  end.

(** [node[key] = v] on an object: an existing member keeps its place, a new
    one goes last. *)
Fixpoint assign (members : list (string * json)) (key : string) (v : json)
  : list (string * json) :=
  match members with
  | [] => [(key, v)]
  | (k, x) :: rest =>
      if String.eqb k key then (k, v) :: rest else (k, x) :: assign rest key v
  end.

(** [delete node[key]] *)
Fixpoint deleteProperty (members : list (string * json)) (key : string)
  : list (string * json) :=
  match members with
  | [] => []
  | (k, x) :: rest =>
      if String.eqb k key then deleteProperty rest key
      else (k, x) :: deleteProperty rest key
  end.

(** [s.replaceAll(pattern, replacement)] for one-character strings. *)
Fixpoint replaceAll (s : string) (pattern replacement : ascii) : string :=
  match s with
  | EmptyString => EmptyString
  | String c rest =>
      String (if Ascii.eqb c pattern then replacement else c)
             (replaceAll rest pattern replacement)
  end.

(** The callback of [map] in [processNode]:
    [name.replaceAll('.', '_').replaceAll('-', '_')]; only a string has
    [replaceAll]. *)
Definition tsEnumName (name : json) : option json :=
  match name with
  | JString s => Some (JString (replaceAll (replaceAll s "." "_") "-" "_"))
  | _ => None
  end.

Fixpoint characters (s : string) : list json :=
  match s with
  | EmptyString => []
  | String c rest => JString (String c EmptyString) :: characters rest
  end.

(** [[...v]]: the items of an array, the characters of a string; nothing
    else that JSON can hold is iterable. *)
Definition spread (v : json) : option (list json) :=
  match v with
  | JArray items => Some items
  | JString s => Some (characters s)
  | _ => None
  end.

(** Running a callback over a list in order, stopping at the first throw. *)
Definition forEach {A : Type} (f : A → option A) : list A → option (list A) :=
  fix go (l : list A) : option (list A) :=
    match l with
    | [] => Some []
    | x :: rest =>
        match f x with
        | Some x' =>
            match go rest with
            | Some rest' => Some (x' :: rest')
            | None => None
            end
        | None => None
        end
    end.

(** [processNode] updates the tree in place; here it returns the updated
    tree.  [null] has type 'object', and reading ['enum'] from it throws. *)
Fixpoint processNode (node : json) : option json :=
  match node with
  | JNull => None
  | JBool _ | JNumber _ | JString _ => Some node
  | JArray items =>
      JArray <$>
        forEach (λ v, if isObject v then processNode v else Some v) items
  | JObject members =>
      let enum := property members "enum" in
      if from_option truthyValue false enum then
        match enum ≫= spread with
        | Some names =>
            match forEach tsEnumName names with
            | Some names' =>
                Some (JObject (assign members "tsEnumNames" (JArray names')))
            | None => None
            end
        | None => None
        end
      else
        JObject <$>
          forEach (λ m, if isObject m.2
                        then (λ v, (m.1, v)) <$> processNode m.2
                        else Some m) members
  end.

(** The body of the loop of [processNode], on an item of an array and on a
    member of an object. *)
Definition visit (v : json) : option json :=
  if isObject v then processNode v else Some v.

Definition visitMember (m : string * json) : option (string * json) :=
  if isObject m.2 then (λ v, (m.1, v)) <$> processNode m.2 else Some m.

(** A name without a dot and without a dash. *)
Fixpoint clean (s : string) : bool :=
  match s with
  | EmptyString => true
  | String c rest =>
      negb (Ascii.eqb c ".") && negb (Ascii.eqb c "-") && clean rest
  end.

(** [s.split(separator)] for a one-character separator. *)
Fixpoint split (s : string) (separator : ascii) : list string :=
  match s with
  | EmptyString => [EmptyString]
  | String c rest =>
      if Ascii.eqb c separator then EmptyString :: split rest separator
      else match split rest separator with
           | first :: others => String c first :: others
           | [] => [String c EmptyString]
           end
  end.

(** [jsonSchema['$id'].split(':').pop()]: only a string has [split]. *)
Definition schemaId (jsonSchema : json) : option string :=
  match jsonSchema with
  | JObject members =>
      match property members "$id" with
      | Some (JString s) => last (split s ":")
      | _ => None
      end
  | _ => None
  end.

(** The first lines of [processJsonSchema], up to the call of
    [processNode]: the short id, and the schema as it is written out. *)
Definition preprocess (jsonSchema : json) : option (string * json) :=
  match jsonSchema with
  | JObject members =>
      match schemaId jsonSchema with
      | Some id =>
          let members := assign members "$id" (JString id) in
          let members := deleteProperty members "$schema" in
          match processNode (JObject members) with
          | Some processed => Some (id, processed)
          | None => None
          end
      | None => None
      end
  | _ => None
  end.

(** [s.includes(searchString)] *)
Definition includes (s searchString : string) : bool :=
  match String.index 0 searchString s with
  | Some _ => true
  | None => false
  end.

(** The keys [for (const key in v)] visits: the keys of an object, the
    indices of an array or of a string, nothing for the rest and for
    undefined. *)
Definition forIn (v : option json) : list string :=
  match v with
  | Some (JObject members) => members.*1
  | Some (JArray items) => pretty <$> seq 0 (length items)
  | Some (JString s) => pretty <$> seq 0 (String.length s)
  | _ => []
  end.

(** [map[key] = v] on a plain object used as a map: the key "__proto__"
    names the prototype accessor, and assigning a string to it stores
    nothing. *)
Definition setKey (map : gmap string string) (key v : string)
  : gmap string string :=
  if String.eqb key "__proto__" then map else <[key := v]> map.

Definition mapFromId (id : string) : gmap string string := setKey ∅ id id.

(** [jsonSchema['definitions']] of a parsed schema; reading it from [null]
    throws, and only an object can have it. *)
Definition collectDefinitions (jsonSchema : json) (id : string)
  : option (gmap string string * list string) :=
  match jsonSchema with
  | JNull => None
  | _ =>
      let definitions :=
        match jsonSchema with
        | JObject members => property members "definitions"
        | _ => None
        end in
      Some (foldl (λ acc key,
                     if negb (includes key "EnumType")
                     then (setKey acc.1 key id, acc.2)
                     else (acc.1, acc.2 ++ [key]))
                  (mapFromId id, []) (forIn definitions))
  end.

Section Induction.
Variable P : json → Prop.
Hypothesis Hnull : P JNull.
Hypothesis Hbool : ∀ b, P (JBool b).
Hypothesis Hnumber : ∀ n, P (JNumber n).
Hypothesis Hstring : ∀ s, P (JString s).
Hypothesis Harray : ∀ items, Forall P items → P (JArray items).
Hypothesis Hobject :
  ∀ members, Forall (λ m, P m.2) members → P (JObject members).

Fixpoint json_ind (v : json) : P v :=
  match v with
  | JNull => Hnull
  | JBool b => Hbool b
  | JNumber n => Hnumber n
  | JString s => Hstring s
  | JArray items =>
      Harray items
        ((fix go (l : list json) : Forall P l :=
            match l with
            | [] => List.Forall_nil P
            | x :: rest => List.Forall_cons P x rest (json_ind x) (go rest)
            end) items)
  | JObject members =>
      Hobject members
        ((fix go (l : list (string * json)) : Forall (λ m, P m.2) l :=
            match l with
            | [] => List.Forall_nil _
            | m :: rest => List.Forall_cons _ m rest (json_ind m.2) (go rest)
            end) members)
  end.
End Induction.

End SchemaProcessor.

(** * Properties *)

(** ** The namespacer and the store *)

Lemma orDefault_nonempty (namespace : option string) :
  String.eqb (orDefault namespace) "" = false.
Proof.
  destruct namespace as [n|]; simpl; [|reflexivity].
  destruct (String.eqb n "") eqn:E; [reflexivity|exact E].
Qed.

Lemma orDefault_idem (namespace : option string) :
  orDefault (Some (orDefault namespace)) = orDefault namespace.
Proof.
  change (orDefault (Some (orDefault namespace)))
    with (if String.eqb (orDefault namespace) "" then "default"
          else orDefault namespace).
  by rewrite orDefault_nonempty.
Qed.

Lemma truthy_nonempty (s : string) : s ≠ "" → truthy (Some s) = Some s.
Proof.
  intros Hs. simpl. destruct (String.eqb s "") eqn:E; [|reflexivity].
  apply String.eqb_eq in E. contradiction.
Qed.

Lemma live_fresh (t : nat) (value : string) (EX : option positive) :
  live t (Entry value ((λ s, (t + Pos.to_nat s)%nat) <$> EX)) = true.
Proof.
  destruct EX as [s|]; simpl; [|reflexivity].
  unfold live; simpl. apply Nat.ltb_lt. lia.
Qed.

Lemma lookup_live_written (r : redis) (key value : string) (e : option nat) :
  live (now r) (Entry value e) = true →
  lookup_live (Redis (<[key := Entry value e]> (db r)) (now r) (up r)) key
  = Some (Entry value e).
Proof.
  intros Hl. unfold lookup_live; simpl.
  rewrite lookup_insert_eq. by rewrite Hl.
Qed.

(** An unconditional write through a working connection always lands. *)
Lemma client_set_writes (r : redis) (key value : string) (EX : option positive) :
  up r = true →
  client_set r key value EX false
  = (Redis (<[key := Entry value ((λ s, (now r + Pos.to_nat s)%nat) <$> EX)]> (db r))
           (now r) (up r),
     Fulfilled (Some "OK"),
     (keyspace key, "set")
       :: match EX with
          | Some _ => [(keyspace key, "expire")]
          | None => []
          end).
Proof. intros Hup. unfold client_set. by rewrite Hup. Qed.

Lemma set_succeeds_up (r r' : redis) (key value : string)
    (namespace : option string) (expireSeconds : option positive)
    (ns : list notification) :
  set r key value namespace expireSeconds = (r', Fulfilled true, ns) →
  up r = true.
Proof.
  unfold set, client_set. destruct (up r); [done|].
  simpl. intros [=].
Qed.

(** A successful [set] leaves a live entry holding the payload as given;
    the [get] that follows returns it when it is not the empty string. *)
Lemma set_then_get {T : Type} (r r' : redis) (key value : string)
    (namespace : option string) (expireSeconds : option positive)
    (ns : list notification) :
  set r key value namespace expireSeconds = (r', Fulfilled true, ns) →
  payload <$> lookup_live r' (prefixed namespace key) = Some value
  ∧ (value ≠ "" →
       get (T:=T) r' key namespace None = Fulfilled (Some (Plain value))).
Proof.
  intros Hset. pose proof (set_succeeds_up _ _ _ _ _ _ _ Hset) as Hup.
  unfold set in Hset. rewrite (client_set_writes _ _ _ _ Hup) in Hset.
  injection Hset as <- _.
  assert (lookup_live
            (Redis (<[prefixed namespace key :=
                        Entry value ((λ s, (now r + Pos.to_nat s)%nat)
                                       <$> expireSeconds)]> (db r))
                   (now r) (up r)) (prefixed namespace key)
          = Some (Entry value ((λ s, (now r + Pos.to_nat s)%nat)
                                 <$> expireSeconds))) as Hl
    by (apply lookup_live_written, live_fresh).
  split.
  - by rewrite Hl.
  - intros Hv. unfold get, client_get. cbv zeta. rewrite Hl. cbn [up].
    rewrite Hup. cbn [then_ fmap option_fmap option_map payload].
    by rewrite (truthy_nonempty _ Hv).
Qed.

(** ** C4: write then read *)

(** C4, the claim as stated, at the empty payload: [set] of the empty string
    succeeds, and the read that follows immediately returns null, not the
    string written. *)
Lemma set_get_empty_payload :
  let '(r', p, _) := set (Redis ∅ 0 true) "k" "" (Some "ns") None in
  p = Fulfilled true
  ∧ get (T:=Empty_set) r' "k" (Some "ns") None = Fulfilled None
  ∧ get (T:=Empty_set) r' "k" (Some "ns") None ≠ Fulfilled (Some (Plain "")).
Proof. vm_compute. repeat split; congruence. Qed.

(** C4, amended: for every key, namespace and non-empty value, a successful
    [set] followed immediately by [get] on the same key and namespace
    returns exactly the value written, and the entry in the store holds the
    payload unchanged. *)
Theorem set_get_nonempty {T : Type} (r r' : redis) (key value : string)
    (namespace : option string) (expireSeconds : option positive)
    (ns : list notification) :
  value ≠ "" →
  set r key value namespace expireSeconds = (r', Fulfilled true, ns) →
  get (T:=T) r' key namespace None = Fulfilled (Some (Plain value))
  ∧ payload <$> lookup_live r' (prefixed namespace key) = Some value.
Proof.
  intros Hv Hset.
  destruct (set_then_get (T:=T) _ _ _ _ _ _ _ Hset) as [Hstored Hget].
  split; [by apply Hget|exact Hstored].
Qed.

Lemma set_get_nonempty_witness :
  get (T:=Empty_set)
      (Redis (<["auth:token" := Entry "abc" (Some 60)]> ∅) 0 true)
      "token" (Some "auth") None
  = Fulfilled (Some (Plain "abc")).
Proof.
  refine (proj1 (set_get_nonempty (T:=Empty_set) (Redis ∅ 0 true) _
                   "token" "abc" (Some "auth") (Some 60%positive) _ _ _)).
  - discriminate.
  - reflexivity.
Defined.

(** ** C5: the conditional write *)

Lemma client_set_nx_absent (r : redis) (key value : string)
    (EX : option positive) :
  up r = true → lookup_live r key = None →
  client_set r key value EX true
  = (Redis (<[key := Entry value ((λ s, (now r + Pos.to_nat s)%nat) <$> EX)]> (db r))
           (now r) (up r),
     Fulfilled (Some "OK"),
     (keyspace key, "set")
       :: match EX with
          | Some _ => [(keyspace key, "expire")]
          | None => []
          end).
Proof.
  intros Hup Hl. unfold client_set. rewrite Hup, Hl.
  rewrite bool_decide_eq_false_2; [reflexivity|].
  intros [e He]. discriminate.
Qed.

Lemma client_set_nx_present (r : redis) (key value : string)
    (EX : option positive) :
  up r = true → is_Some (lookup_live r key) →
  client_set r key value EX true = (r, Fulfilled None, []).
Proof.
  intros Hup Hl. unfold client_set. rewrite Hup.
  by rewrite bool_decide_eq_true_2.
Qed.

(** C5, amended: through a working connection, [setIfNotExist] returns
    true exactly when no live entry exists for the key and namespace, and
    then the store holds the value; when a live entry exists it returns
    false, the store is unchanged and nothing is published, so a [get] that
    follows returns what it returned before: the payload of the entry that
    was there when that payload is not the empty string. *)
Theorem setIfNotExist_spec {T : Type} (r : redis) (key value : string)
    (namespace : option string) (expireSeconds : option positive)
    (cc : option (classConstructor (T:=T))) :
  up r = true →
  let k := prefixed namespace key in
  let res := setIfNotExist r key value namespace expireSeconds in
  (res.1.2 = Fulfilled true ↔ lookup_live r k = None)
  ∧ (lookup_live r k = None →
       res.1.2 = Fulfilled true
       ∧ payload <$> lookup_live res.1.1 k = Some value)
  ∧ (∀ e, lookup_live r k = Some e →
       res.1.2 = Fulfilled false
       ∧ res.1.1 = r
       ∧ res.2 = []
       ∧ lookup_live res.1.1 k = Some e
       ∧ get res.1.1 key namespace cc = get r key namespace cc
       ∧ (payload e ≠ "" →
            get (T:=T) res.1.1 key namespace None
            = Fulfilled (Some (Plain (payload e))))).
Proof.
  intros Hup k res.
  assert (lookup_live r k = None →
          res.1.2 = Fulfilled true
          ∧ payload <$> lookup_live res.1.1 k = Some value) as Habsent.
  { intros Hl. subst res. unfold setIfNotExist. fold k.
    rewrite (client_set_nx_absent _ _ _ _ Hup Hl). cbn [fst snd].
    split; [reflexivity|].
    by rewrite lookup_live_written by apply live_fresh. }
  assert (∀ e, lookup_live r k = Some e →
          res.1.2 = Fulfilled false ∧ res.1.1 = r ∧ res.2 = []) as Hpresent.
  { intros e Hl. subst res. unfold setIfNotExist. fold k.
    rewrite (client_set_nx_present _ _ _ _ Hup) by (rewrite Hl; eauto).
    by cbn. }
  split; [|split].
  - split.
    + intros Htrue. destruct (lookup_live r k) as [e|] eqn:Hl; [|reflexivity].
      destruct (Hpresent e eq_refl) as (Hfalse & _). congruence.
    + intros Hl. by apply Habsent.
  - exact Habsent.
  - intros e Hl. destruct (Hpresent e Hl) as (Hfalse & Hsame & Hquiet).
    rewrite Hsame. repeat split; try done.
    intros Hp. unfold get, client_get. cbv zeta. fold k. rewrite Hup, Hl.
    cbn [then_ fmap option_fmap option_map].
    by rewrite (truthy_nonempty _ Hp).
Qed.

Lemma setIfNotExist_spec_witness :
  (setIfNotExist (Redis (<["auth:token" := Entry "abc" (Some 60)]> ∅) 0 true)
                 "token" "xyz" (Some "auth") (Some 60%positive)).1.2
  = Fulfilled false
  ∧ get (T:=Empty_set)
        (setIfNotExist (Redis (<["auth:token" := Entry "abc" (Some 60)]> ∅) 0 true)
                       "token" "xyz" (Some "auth") (Some 60%positive)).1.1
        "token" (Some "auth") None
    = Fulfilled (Some (Plain "abc")).
Proof.
  pose proof (setIfNotExist_spec (T:=Empty_set)
                (Redis (<["auth:token" := Entry "abc" (Some 60)]> ∅) 0 true)
                "token" "xyz" (Some "auth") (Some 60%positive) None eq_refl)
    as (_ & _ & Hpresent).
  destruct (Hpresent (Entry "abc" (Some 60)) eq_refl)
    as (Hfalse & _ & _ & _ & _ & Hget).
  split; [exact Hfalse|].
  apply Hget. discriminate.
Defined.

(** C5, the claim as stated, at a live entry holding the empty string:
    [setIfNotExist] returns false and leaves the entry as it is, but the
    [get] that follows returns null, not the value that was there. *)
Lemma setIfNotExist_keeps_empty_entry :
  let r := Redis (<["ns:k" := Entry "" None]> ∅) 0 true in
  let res := setIfNotExist r "k" "v" (Some "ns") None in
  payload <$> lookup_live r "ns:k" = Some ""
  ∧ res.1.2 = Fulfilled false
  ∧ payload <$> lookup_live res.1.1 "ns:k" = Some ""
  ∧ get (T:=Empty_set) res.1.1 "k" (Some "ns") None = Fulfilled None
  ∧ get (T:=Empty_set) res.1.1 "k" (Some "ns") None
    ≠ Fulfilled (Some (Plain "")).
Proof. vm_compute. repeat split; congruence. Qed.

(** ** C9: the empty payload *)

(** C9: through a working connection, [set] of the empty string succeeds;
    afterwards [get] on the key and namespace returns null, with or without
    a class constructor, while [exists] returns true. *)
Theorem empty_payload_reads_absent {T : Type} (r : redis) (key : string)
    (namespace : option string) (expireSeconds : option positive)
    (cc : option (classConstructor (T:=T))) :
  up r = true →
  let res := set r key "" namespace expireSeconds in
  res.1.2 = Fulfilled true
  ∧ get res.1.1 key namespace cc = Fulfilled None
  ∧ exists_ res.1.1 key namespace = Fulfilled true
  ∧ payload <$> lookup_live res.1.1 (prefixed namespace key) = Some "".
Proof.
  intros Hup res. subst res. unfold set.
  rewrite (client_set_writes _ _ _ _ Hup). cbn [fst snd].
  split; [reflexivity|].
  unfold get, exists_, client_get, client_exists. cbv zeta.
  rewrite lookup_live_written by apply live_fresh.
  cbn [up]. rewrite Hup. by cbn.
Qed.

Lemma empty_payload_reads_absent_witness :
  get (T:=Empty_set) (set (Redis ∅ 0 true) "k" "" (Some "ns") None).1.1
      "k" (Some "ns") None
  = Fulfilled None
  ∧ exists_ (set (Redis ∅ 0 true) "k" "" (Some "ns") None).1.1 "k" (Some "ns")
    = Fulfilled true.
Proof.
  pose proof (empty_payload_reads_absent (T:=Empty_set) (Redis ∅ 0 true)
                "k" (Some "ns") None None eq_refl) as (_ & Hget & Hex & _).
  split; [exact Hget|exact Hex].
Defined.

(** ** The wait handle *)

Ltac crush_handle :=
  intros;
  repeat match goal with
         | h : waitHandle |- _ => destruct h; simpl in *
         end;
  repeat match goal with
         | |- context [String.eqb ?a ?b] =>
             destruct (String.eqb a b) eqn:?; simpl in *
         | |- context [match ?x with _ => _ end] => destruct x eqn:?; simpl in *
         | H : context [match ?x with _ => _ end] |- _ =>
             destruct x eqn:?; simpl in *
         | H : _ ∧ _ |- _ => destruct H
         end;
  simplify_eq; repeat split; try done; try lia.

Section HandleLemmas.
Context {T : Type}.
Implicit Types (h : waitHandle (T:=T)) (w : world (T:=T)) (r : redis).

Lemma same_closure_refl h : same_closure h h.
Proof. by repeat split. Qed.

Lemma same_closure_trans h1 h2 h3 :
  same_closure h1 h2 → same_closure h2 h3 → same_closure h1 h3.
Proof.
  unfold same_closure. intros (?&?&?&?&?) (?&?&?&?&?).
  repeat split; congruence.
Qed.

Lemma listener_closure r h message : same_closure h (listener r h message).
Proof. unfold same_closure, listener, this_get, resolve, quit. crush_handle. Qed.

(** No message reaches the listener: the subscriber is not connected. *)
Lemma deliver_nothing r h n : deliver r h n = h.
Proof. reflexivity. Qed.

Lemma publish_nothing r ns h : foldl (deliver r) h ns = h.
Proof.
  induction ns as [|n ns IH]; simpl; [done|]. by rewrite deliver_nothing.
Qed.

(** Only the timer callback ever touches the handle. *)
Lemma step_handle w e :
  handle (step w e)
  = match e with
    | Due => fire (store w) (handle w)
    | _ => handle w
    end.
Proof.
  destruct e as [c m|c| | |b]; cbn [step handle]; try reflexivity.
  destruct (perform (store w) c) as [r' ns]. cbn [handle].
  apply publish_nothing.
Qed.

Lemma deliver_closure r h n : same_closure h (deliver r h n).
Proof. rewrite deliver_nothing. apply same_closure_refl. Qed.

Lemma fire_closure r h : same_closure h (fire r h).
Proof.
  unfold same_closure, fire, onTimeout, this_get, resolve, quit. crush_handle.
Qed.

Lemma publish_closure r ns h : same_closure h (foldl (deliver r) h ns).
Proof.
  revert h. induction ns as [|n ns IH]; intros h; simpl.
  - apply same_closure_refl.
  - eapply same_closure_trans; [apply deliver_closure|apply IH].
Qed.

Lemma step_closure w e : same_closure (handle w) (handle (step w e)).
Proof.
  rewrite step_handle.
  destruct e as [c m|c| | |b];
    [apply same_closure_refl|apply same_closure_refl|apply same_closure_refl
    |apply fire_closure|apply same_closure_refl].
Qed.

Lemma run_closure es w : same_closure (handle w) (handle (run w es)).
Proof.
  revert w. induction es as [|e es IH]; intros w; simpl.
  - apply same_closure_refl.
  - eapply same_closure_trans; [apply step_closure|apply IH].
Qed.

(** Coherence is kept by every callback. *)
Lemma listener_coherent r h message :
  coherent h → coherent (listener r h message).
Proof. unfold coherent, listener, this_get, resolve, quit. crush_handle. Qed.

Lemma deliver_coherent r h n : coherent h → coherent (deliver r h n).
Proof. by rewrite deliver_nothing. Qed.

Lemma fire_coherent r h : coherent h → coherent (fire r h).
Proof. unfold coherent, fire, onTimeout, this_get, resolve, quit. crush_handle. Qed.

Lemma publish_coherent r ns h :
  coherent h → coherent (foldl (deliver r) h ns).
Proof.
  revert h. induction ns as [|n ns IH]; intros h Hc; simpl; [done|].
  by apply IH, deliver_coherent.
Qed.

Lemma step_coherent w e : coherent (handle w) → coherent (handle (step w e)).
Proof.
  intros Hc. rewrite step_handle.
  destruct e as [c m|c| | |b]; [done|done|done|by apply fire_coherent|done].
Qed.

Lemma run_coherent es w : coherent (handle w) → coherent (handle (run w es)).
Proof.
  revert w. induction es as [|e es IH]; intros w Hc; simpl; [done|].
  by apply IH, step_coherent.
Qed.

Lemma started_coherent r key waitSeconds namespace
    (cc : option (classConstructor (T:=T))) es :
  coherent (handle (run (started r key waitSeconds namespace cc) es)).
Proof. apply run_coherent. by split. Qed.

(** Once decided, the promise stays as decided. *)
Lemma listener_settled r h message p :
  settled h = Some p → settled (listener r h message) = Some p.
Proof. unfold listener, this_get, resolve, quit. crush_handle. Qed.

Lemma deliver_settled r h n p :
  settled h = Some p → settled (deliver r h n) = Some p.
Proof. by rewrite deliver_nothing. Qed.


Lemma publish_settled r ns h p :
  settled h = Some p → settled (foldl (deliver r) h ns) = Some p.
Proof.
  revert h. induction ns as [|n ns IH]; intros h Hs; simpl; [done|].
  by apply IH, deliver_settled.
Qed.



(** What each callback does to a pending handle. *)
Lemma listener_set r h :
  settled h = None →
  settled (listener r h "set")
  = Some (get r (h_key h) (Some (h_namespace h)) (h_cc h))
  ∧ quits (listener r h "set") = S (quits h)
  ∧ timer (listener r h "set") = timer h
  ∧ reads (listener r h "set")
    = reads h ++ [prefixed (Some (h_namespace h)) (h_key h)].
Proof. unfold listener, this_get, resolve, quit. crush_handle. Qed.

Lemma listener_removed r h message :
  message = "del" ∨ message = "expire" →
  settled h = None →
  settled (listener r h message) = Some (Fulfilled None)
  ∧ quits (listener r h message) = S (quits h)
  ∧ timer (listener r h message) = timer h
  ∧ reads (listener r h message) = reads h.
Proof.
  intros [-> | ->] Hs; unfold listener, resolve, quit; simpl;
    rewrite Hs; by simpl.
Qed.

Lemma listener_other r h message :
  resolving message = false → listener r h message = h.
Proof.
  unfold resolving, listener. intros Hm.
  destruct (String.eqb message "set"); [done|].
  destruct (String.eqb message "del"); [done|].
  destruct (String.eqb message "expire"); done.
Qed.

Lemma fire_due r h :
  timer h = true → h_due h ≤ now r → settled h = None →
  settled (fire r h) = Some (get r (h_key h) (Some (h_namespace h)) (h_cc h))
  ∧ quits (fire r h) = S (quits h)
  ∧ timer (fire r h) = false
  ∧ reads (fire r h) = reads h ++ [prefixed (Some (h_namespace h)) (h_key h)].
Proof.
  intros Ht Hd Hs. unfold fire. rewrite Ht.
  apply Nat.leb_le in Hd. rewrite Hd.
  unfold onTimeout, this_get, resolve, quit; simpl. rewrite Hs. by simpl.
Qed.

Lemma fire_disarms r h : h_due h ≤ now r → timer (fire r h) = false.
Proof.
  intros Hd. apply Nat.leb_le in Hd.
  unfold fire, onTimeout, this_get, resolve, quit. rewrite Hd.
  destruct h as [k n c ch d s q [] rd]; simpl; [|done].
  by destruct s.
Qed.

(** The closure [onChange] builds. *)
Lemma started_closure r key waitSeconds namespace
    (cc : option (classConstructor (T:=T))) es :
  let h := handle (run (started r key waitSeconds namespace cc) es) in
  h_key h = prefixed namespace key
  ∧ h_namespace h = orDefault namespace
  ∧ h_cc h = cc
  ∧ h_channel h = keyspace (prefixed namespace key)
  ∧ h_due h = now r + waitSeconds.
Proof.
  intros h.
  destruct (run_closure es (started r key waitSeconds namespace cc))
    as (Hk & Hn & Hc & Hch & Hd).
  subst h. by rewrite Hk, Hn, Hc, Hch, Hd.
Qed.

(** The storage key the callbacks read: the namespace is prefixed twice,
    once by [onChange] and once more by [get]. *)
Lemma callback_get_key (key : string) (namespace : option string) :
  prefixed (Some (orDefault namespace)) (prefixed namespace key)
  = orDefault namespace +:+ ":" +:+ orDefault namespace +:+ ":" +:+ key.
Proof. unfold prefixed. by rewrite orDefault_idem. Qed.

End HandleLemmas.

(** ** C1 and C2: the read behind the two resolving paths *)

Lemma length_append (a b : string) :
  String.length (a +:+ b) = String.length a + String.length b.
Proof. induction a as [|c a IH]; simpl; [done|]. by rewrite IH. Qed.

(** The key the callbacks read is never the key [onChange] watches. *)
Lemma callback_key_differs (key : string) (namespace : option string) :
  prefixed (Some (orDefault namespace)) (prefixed namespace key)
  ≠ prefixed namespace key.
Proof.
  rewrite callback_get_key. unfold prefixed. intros Heq.
  apply (f_equal String.length) in Heq.
  rewrite !length_append in Heq. simpl in Heq. lia.
Qed.

Lemma lookup_live_other (r : redis) (k k' : string) (e : entry) :
  k ≠ k' →
  lookup_live (Redis (<[k := e]> (db r)) (now r) (up r)) k' = lookup_live r k'.
Proof.
  intros Hne. unfold lookup_live; simpl. by rewrite lookup_insert_ne.
Qed.

Lemma step_call_store {T : Type} (w : world (T:=T)) (c : call) :
  store (step w (Call c)) = (perform (store w) c).1.
Proof. cbn [step]. by destruct (perform (store w) c) as [r' ns]. Qed.

Lemma set_writes_store (r : redis) (key value : string)
    (namespace : option string) (expireSeconds : option positive) :
  up r = true →
  (set r key value namespace expireSeconds).1.1
  = Redis (<[prefixed namespace key :=
               Entry value ((λ s, (now r + Pos.to_nat s)%nat) <$> expireSeconds)]>
             (db r)) (now r) (up r)
  ∧ (set r key value namespace expireSeconds).1.2 = Fulfilled true.
Proof.
  intros Hup. unfold set. by rewrite (client_set_writes _ _ _ _ Hup).
Qed.

(** Whatever the key, the namespace and the value written: a [set] by
    another caller leaves a pending [onChange] pending, since its message
    never reaches the listener; and were the case "set" of the listener
    entered at that moment, it would decide the promise with null when
    nothing is stored under the doubly prefixed key, although [get] on the
    key and namespace returns the value. *)
Lemma set_case_reads_beside_the_write {T : Type} (r : redis)
    (key value : string) (waitSeconds : nat) (namespace : option string)
    (expireSeconds : option positive) :
  up r = true → value ≠ "" →
  lookup_live r (prefixed (Some (orDefault namespace)) (prefixed namespace key))
  = None →
  let w := step (started (T:=T) r key waitSeconds namespace None)
                (Call (CallSet key value namespace expireSeconds)) in
  settled (handle w) = None
  ∧ settled (listener (store w) (handle w) "set") = Some (Fulfilled None)
  ∧ get (T:=T) (store w) key namespace None = Fulfilled (Some (Plain value)).
Proof.
  intros Hup Hv Hfree w.
  assert (handle w = onChange r key waitSeconds namespace None) as Hh
    by (subst w; by rewrite step_handle).
  assert (store w
          = Redis (<[prefixed namespace key :=
                       Entry value ((λ s, (now r + Pos.to_nat s)%nat)
                                      <$> expireSeconds)]> (db r))
                  (now r) (up r)) as Hst.
  { subst w. rewrite step_call_store. cbn [started store perform].
    destruct (set_writes_store r key value namespace expireSeconds Hup)
      as [Hstore _].
    rewrite <-Hstore.
    by destruct (set r key value namespace expireSeconds) as [[r' p] ns]. }
  rewrite Hh, Hst. split; [done|]. split.
  - destruct (listener_set
                (Redis (<[prefixed namespace key :=
                            Entry value ((λ s, (now r + Pos.to_nat s)%nat)
                                           <$> expireSeconds)]> (db r))
                       (now r) (up r))
                (onChange (T:=T) r key waitSeconds namespace None) eq_refl)
      as (-> & _).
    cbn [h_key h_namespace h_cc onChange].
    unfold get, client_get. cbv zeta.
    rewrite lookup_live_other
      by (intros Heq; by apply (callback_key_differs key namespace)).
    rewrite Hfree. cbn [up]. by rewrite Hup.
  - unfold get, client_get. cbv zeta.
    rewrite lookup_live_written by apply live_fresh.
    cbn [up fmap option_fmap option_map payload]. rewrite Hup.
    cbn [then_]. by rewrite truthy_nonempty.
Qed.

(** C1, on the code: [onChange("k", 5, "ns")] is pending on an empty store
    and another caller's [set("k", "X", "ns")] succeeds before the timer is
    due.  From then on [get("k", "ns")] returns "X", but the wait is not
    resolved with it.  The "set" message never reaches the listener, so the
    wait stays pending until the timer fires at five seconds; and both the
    case "set" of the listener and the timer callback read the key
    "ns:ns:k", so either of them decides the promise with null. *)
Theorem set_event_misses_value :
  let r := Redis ∅ 0 true in
  let w := run (started (T:=Empty_set) r "k" 5 (Some "ns") None)
               [Call (CallSet "k" "X" (Some "ns") None)] in
  let w' := run w [Elapse; Elapse; Elapse; Elapse; Elapse; Due] in
  now (store w) < h_due (handle w)
  ∧ get (T:=Empty_set) (store w) "k" (Some "ns") None
    = Fulfilled (Some (Plain "X"))
  ∧ settled (handle w) = None
  ∧ settled (listener (store w) (handle w) "set") = Some (Fulfilled None)
  ∧ reads (listener (store w) (handle w) "set") = ["ns:ns:k"]
  ∧ get (T:=Empty_set) (store w') "k" (Some "ns") None
    = Fulfilled (Some (Plain "X"))
  ∧ settled (handle w') = Some (Fulfilled None)
  ∧ reads (handle w') = ["ns:ns:k"].
Proof. repeat split; try reflexivity; vm_compute; lia. Qed.

(** The timer callback reads the doubly prefixed key as well. *)
Lemma timeout_reads_beside_the_key {T : Type} (r : redis) (key : string)
    (waitSeconds : nat) (namespace : option string)
    (cc : option (classConstructor (T:=T))) (es : list event) :
  let w := run (started r key waitSeconds namespace cc) es in
  settled (handle w) = None →
  h_due (handle w) ≤ now (store w) →
  settled (handle (step w Due))
  = Some (get (store w) (prefixed namespace key) (Some (orDefault namespace)) cc)
  ∧ reads (handle (step w Due))
    = reads (handle w)
      ++ [orDefault namespace +:+ ":" +:+ orDefault namespace +:+ ":" +:+ key].
Proof.
  intros w Hs Hd.
  pose proof (started_coherent r key waitSeconds namespace cc es) as Hc.
  destruct (started_closure r key waitSeconds namespace cc es)
    as (Hk & Hn & Hcc & _ & _).
  fold w in Hc, Hk, Hn, Hcc. unfold coherent in Hc. rewrite Hs in Hc.
  destruct Hc as [_ Ht]. cbn [step handle].
  destruct (fire_due (store w) (handle w) Ht Hd Hs) as (-> & _ & _ & ->).
  by rewrite Hk, Hn, Hcc, callback_get_key.
Qed.

(** C2, on the code: [onChange("k", 1, "ns")] is pending while "ns:k" holds
    "A" and nothing happens to the key.  When the timer fires,
    [get("k", "ns")] returns "A", but the promise is decided with null: the
    timer callback read "ns:ns:k". *)
Theorem timeout_misses_value :
  let r := Redis (<["ns:k" := Entry "A" None]> ∅) 0 true in
  let w := run (started (T:=Empty_set) r "k" 1 (Some "ns") None) [Elapse] in
  settled (handle w) = None
  ∧ h_due (handle w) ≤ now (store w)
  ∧ get (T:=Empty_set) (store w) "k" (Some "ns") None
    = Fulfilled (Some (Plain "A"))
  ∧ settled (handle (step w Due)) = Some (Fulfilled None)
  ∧ reads (handle (step w Due)) = ["ns:ns:k"].
Proof. repeat split; try reflexivity; vm_compute; lia. Qed.

(** ** C3: removal *)

(** Nothing but the timer falling due changes a call of [onChange]: neither
    a published message nor another caller's operation reaches it. *)
Lemma only_the_timer_acts {T : Type} (w : world (T:=T)) (e : event) :
  e ≠ Due → handle (step w e) = handle w.
Proof. intros He. rewrite step_handle. by destruct e. Qed.

(** C3, on the code: [onChange("k", 2, "ns")] is pending while "ns:k" holds
    "A", and another caller's [remove("k", "ns")] succeeds.  The entry is
    gone, but the "del" message never reaches the listener: the wait stays
    pending, and it is resolved only when the timer fires at two seconds,
    through a GET, sent for "ns:ns:k".  The same holds when the entry goes
    by expiry: its "expired" message is none of the cases of the switch. *)
Theorem removal_waits_for_timer :
  let r := Redis (<["ns:k" := Entry "A" None]> ∅) 0 true in
  let w := run (started (T:=Empty_set) r "k" 2 (Some "ns") None)
               [Call (CallRemove "k" (Some "ns"))] in
  let w' := run w [Elapse; Elapse; Due] in
  let r2 := Redis (<["ns:k" := Entry "A" (Some 1)]> ∅) 0 true in
  let w2 := run (started (T:=Empty_set) r2 "k" 3 (Some "ns") None)
                [Elapse; Publish "__keyspace@0__:ns:k" "expired"] in
  exists_ (store w) "k" (Some "ns") = Fulfilled false
  ∧ settled (handle w) = None
  ∧ quits (handle w) = 0
  ∧ reads (handle w) = []
  ∧ settled (handle w') = Some (Fulfilled None)
  ∧ reads (handle w') = ["ns:ns:k"]
  ∧ exists_ (store w2) "k" (Some "ns") = Fulfilled false
  ∧ settled (handle w2) = None
  ∧ listener (store w2) (handle w2) "expired" = handle w2.
Proof. repeat split; reflexivity. Qed.

(** ** C6: one outcome, and the resources of a call *)





(** ** C7: a failed read *)



(** ** C10: what decides the promise before the timer *)





(** * Further properties of the cache operations *)

(** ** Reading through a working connection *)

Lemma get_up {T : Type} (r : redis) (key : string) (namespace : option string)
    (cc : option (classConstructor (T:=T))) :
  up r = true →
  get r key namespace cc
  = match truthy (payload <$> lookup_live r (prefixed namespace key)) with
    | Some s =>
        match cc with
        | Some build =>
            match build s with
            | Some t => Fulfilled (Instance <$> t)
            | None => Rejected FormatError
            end
        | None => Fulfilled (Some (Plain s))
        end
    | None => Fulfilled None
    end.
Proof. intros Hup. unfold get, client_get. by rewrite Hup. Qed.

Lemma exists_up (r : redis) (key : string) (namespace : option string) :
  up r = true →
  exists_ r key namespace
  = Fulfilled (bool_decide (is_Some (lookup_live r (prefixed namespace key)))).
Proof.
  intros Hup. unfold exists_, client_exists. rewrite Hup.
  by destruct (lookup_live r (prefixed namespace key)).
Qed.

(** X1: through a working connection, on a key that was never written or
    whose entry has expired, [exists] returns false, [get] and [getSync]
    return null whatever the class constructor, and [remove] returns false,
    changes nothing and publishes nothing. *)
Theorem missing_key_reads_absent {T : Type} (r : redis) (key : string)
    (namespace : option string) (cc : option (classConstructor (T:=T))) :
  up r = true →
  lookup_live r (prefixed namespace key) = None →
  exists_ r key namespace = Fulfilled false
  ∧ get r key namespace cc = Fulfilled None
  ∧ getSync r key namespace cc = Returns None
  ∧ remove r key namespace = (r, Fulfilled false, []).
Proof.
  intros Hup Hl. repeat split.
  - by rewrite exists_up, Hl.
  - by rewrite get_up, Hl.
  - unfold getSync, client_get. by rewrite Hup, Hl.
  - unfold remove, client_del. by rewrite Hup, Hl.
Qed.

Lemma missing_key_reads_absent_witness :
  let r := later 2 (Redis (<["ns:k" := Entry "A" (Some 2)]> ∅) 0 true) in
  exists_ r "k" (Some "ns") = Fulfilled false
  ∧ get (T:=Empty_set) r "k" (Some "ns") None = Fulfilled None.
Proof.
  intros r.
  destruct (missing_key_reads_absent (T:=Empty_set) r "k" (Some "ns") None
              eq_refl eq_refl) as (Hex & Hget & _).
  split; [exact Hex|exact Hget].
Defined.

(** X2: through a working connection, [remove] of a live entry returns
    true and publishes "del" on the key's channel; right after it [exists]
    returns false, [get] returns null, and a second [remove] returns false
    and changes nothing. *)
Theorem remove_once {T : Type} (r : redis) (key : string)
    (namespace : option string) (cc : option (classConstructor (T:=T)))
    (e : entry) :
  up r = true →
  lookup_live r (prefixed namespace key) = Some e →
  let res := remove r key namespace in
  res.1.2 = Fulfilled true
  ∧ res.2 = [(keyspace (prefixed namespace key), "del")]
  ∧ exists_ res.1.1 key namespace = Fulfilled false
  ∧ get res.1.1 key namespace cc = Fulfilled None
  ∧ remove res.1.1 key namespace = (res.1.1, Fulfilled false, []).
Proof.
  intros Hup Hl res.
  assert (res = (Redis (delete (prefixed namespace key) (db r)) (now r) (up r),
                 Fulfilled true,
                 [(keyspace (prefixed namespace key), "del")])) as ->.
  { subst res. unfold remove, client_del. by rewrite Hup, Hl. }
  cbn [fst snd].
  assert (lookup_live (Redis (delete (prefixed namespace key) (db r))
                             (now r) (up r)) (prefixed namespace key)
          = None) as Hgone.
  { unfold lookup_live; simpl. by rewrite lookup_delete_eq. }
  split; [done|]. split; [done|]. split; [|split].
  - by rewrite exists_up, Hgone.
  - by rewrite get_up, Hgone.
  - unfold remove, client_del. cbv zeta. rewrite Hgone. cbn [up]. by rewrite Hup.
Qed.

Lemma remove_once_witness :
  let r := Redis (<["ns:k" := Entry "A" None]> ∅) 0 true in
  (remove r "k" (Some "ns")).1.2 = Fulfilled true
  ∧ (remove (remove r "k" (Some "ns")).1.1 "k" (Some "ns")).1.2
    = Fulfilled false.
Proof.
  intros r.
  destruct (remove_once (T:=Empty_set) r "k" (Some "ns") None
              (Entry "A" None) eq_refl eq_refl) as (Hfirst & _ & _ & _ & Hsecond).
  split; [exact Hfirst|]. by rewrite Hsecond.
Defined.

(** ** Keys are independent *)

Lemma same_view {T : Type} (r r' : redis) (key : string)
    (namespace : option string) (cc : option (classConstructor (T:=T))) :
  lookup_live r' (prefixed namespace key) = lookup_live r (prefixed namespace key) →
  up r' = up r →
  get r' key namespace cc = get r key namespace cc
  ∧ exists_ r' key namespace = exists_ r key namespace.
Proof.
  intros Hl Hup. unfold get, exists_, client_get, client_exists.
  by rewrite Hl, Hup.
Qed.

Lemma lookup_live_deleted_other (r : redis) (k k' : string) :
  k ≠ k' →
  lookup_live (Redis (delete k (db r)) (now r) (up r)) k' = lookup_live r k'.
Proof.
  intros Hne. unfold lookup_live; simpl. by rewrite lookup_delete_ne.
Qed.

Lemma client_set_other (r : redis) (k k' value : string)
    (EX : option positive) (NX : bool) :
  k ≠ k' →
  lookup_live (client_set r k value EX NX).1.1 k' = lookup_live r k'
  ∧ up (client_set r k value EX NX).1.1 = up r.
Proof.
  intros Hne. unfold client_set.
  destruct (up r) eqn:Hup; [|done].
  destruct (NX && bool_decide (is_Some (lookup_live r k))); [done|].
  cbn [fst snd up]. split; [|done].
  rewrite <-Hup. by apply lookup_live_other.
Qed.

Lemma client_del_other (r : redis) (k k' : string) :
  k ≠ k' →
  lookup_live (client_del r k).1.1 k' = lookup_live r k'
  ∧ up (client_del r k).1.1 = up r.
Proof.
  intros Hne. unfold client_del.
  destruct (up r) eqn:Hup; [|done].
  destruct (lookup_live r k); [|done].
  cbn [fst snd up]. split; [|done].
  rewrite <-Hup. by apply lookup_live_deleted_other.
Qed.

Lemma set_store (r : redis) (key value : string) (namespace : option string)
    (expireSeconds : option positive) :
  (set r key value namespace expireSeconds).1.1
  = (client_set r (prefixed namespace key) value expireSeconds false).1.1.
Proof.
  unfold set.
  by destruct (client_set r (prefixed namespace key) value expireSeconds false)
    as [[r' p] ns].
Qed.

Lemma setIfNotExist_store (r : redis) (key value : string)
    (namespace : option string) (expireSeconds : option positive) :
  (setIfNotExist r key value namespace expireSeconds).1.1
  = (client_set r (prefixed namespace key) value expireSeconds true).1.1.
Proof.
  unfold setIfNotExist.
  by destruct (client_set r (prefixed namespace key) value expireSeconds true)
    as [[r' p] ns].
Qed.

Lemma remove_store (r : redis) (key : string) (namespace : option string) :
  (remove r key namespace).1.1 = (client_del r (prefixed namespace key)).1.1.
Proof.
  unfold remove.
  by destruct (client_del r (prefixed namespace key)) as [[r' p] ns].
Qed.

(** X3: [set], [setIfNotExist] and [remove] touch one storage key only:
    whatever they do, and whether or not the connection works, [get] and
    [exists] on any other storage key answer as before. *)
Theorem other_keys_untouched {T : Type} (r : redis) (key value : string)
    (namespace : option string) (expireSeconds : option positive)
    (key' : string) (namespace' : option string)
    (cc : option (classConstructor (T:=T))) :
  prefixed namespace key ≠ prefixed namespace' key' →
  (get (set r key value namespace expireSeconds).1.1 key' namespace' cc
   = get r key' namespace' cc
   ∧ exists_ (set r key value namespace expireSeconds).1.1 key' namespace'
     = exists_ r key' namespace')
  ∧ (get (setIfNotExist r key value namespace expireSeconds).1.1
         key' namespace' cc
     = get r key' namespace' cc
     ∧ exists_ (setIfNotExist r key value namespace expireSeconds).1.1
               key' namespace'
       = exists_ r key' namespace')
  ∧ (get (remove r key namespace).1.1 key' namespace' cc
     = get r key' namespace' cc
     ∧ exists_ (remove r key namespace).1.1 key' namespace'
       = exists_ r key' namespace').
Proof.
  intros Hne. rewrite set_store, setIfNotExist_store, remove_store.
  split; [|split]; apply same_view;
    try apply (client_set_other _ _ _ _ _ _ Hne);
    apply (client_del_other _ _ _ Hne).
Qed.

Lemma other_keys_untouched_witness :
  let r := Redis (<["ns:k" := Entry "A" None]> ∅) 0 true in
  get (T:=Empty_set) (remove r "j" (Some "ns")).1.1 "k" (Some "ns") None
  = get r "k" (Some "ns") None.
Proof.
  intros r.
  refine (proj1 (proj2 (proj2 (other_keys_untouched (T:=Empty_set) r "j" ""
                                 (Some "ns") None "k" (Some "ns") None _)))).
  discriminate.
Defined.

(** ** The namespacer *)

Lemma colon_split (n1 n2 k1 k2 : string) :
  colonFree n1 = true → colonFree n2 = true →
  n1 +:+ ":" +:+ k1 = n2 +:+ ":" +:+ k2 →
  n1 = n2 ∧ k1 = k2.
Proof.
  revert n2. induction n1 as [|c1 n1 IH]; intros [|c2 n2] H1 H2 Heq;
    simpl in *.
  - by injection Heq.
  - injection Heq as <- _. done.
  - injection Heq as -> _. done.
  - injection Heq as -> Heq.
    apply andb_true_iff in H1 as [_ H1]. apply andb_true_iff in H2 as [_ H2].
    destruct (IH n2 H1 H2 Heq) as [-> ->]. done.
Qed.

(** X4: an absent namespace, the empty namespace and "default" name the
    same storage key; and among namespaces without a colon the storage key
    determines the namespace and the key, so two callers share an entry only
    when they use the same namespace and the same key. *)
Theorem prefixed_injective (namespace1 namespace2 : option string)
    (key1 key2 : string) :
  prefixed None key1 = prefixed (Some "default") key1
  ∧ prefixed (Some "") key1 = prefixed (Some "default") key1
  ∧ (colonFree (orDefault namespace1) = true →
     colonFree (orDefault namespace2) = true →
     prefixed namespace1 key1 = prefixed namespace2 key2 →
     orDefault namespace1 = orDefault namespace2 ∧ key1 = key2).
Proof.
  split; [done|]. split; [done|].
  intros H1 H2 Heq. by apply colon_split.
Qed.

Lemma prefixed_injective_witness :
  orDefault None = orDefault (Some "default") ∧ "k" = "k".
Proof.
  refine (proj2 (proj2 (prefixed_injective None (Some "default") "k" "k"))
                _ _ _);
    reflexivity.
Defined.

Lemma append_assoc (a b c : string) : (a +:+ b) +:+ c = a +:+ (b +:+ c).
Proof.
  induction a as [|x a IH]; [done|].
  change (String x ((a +:+ b) +:+ c) = String x (a +:+ (b +:+ c))).
  by rewrite IH.
Qed.

Lemma orDefault_some (n : string) : n ≠ "" → orDefault (Some n) = n.
Proof.
  intros Hn. simpl. destruct (String.eqb n "") eqn:E; [|done].
  by apply String.eqb_eq in E.
Qed.

(** X5: a colon in a namespace makes the storage key ambiguous: key [b:c]
    in namespace [a] and key [c] in namespace [a:b] are the same entry, so a
    value written through the one is read through the other. *)
Theorem colon_namespace_collides {T : Type} (r : redis) (a b c value : string)
    (expireSeconds : option positive) :
  a ≠ "" → up r = true → value ≠ "" →
  prefixed (Some a) (b +:+ ":" +:+ c) = prefixed (Some (a +:+ ":" +:+ b)) c
  ∧ get (T:=T) (set r (b +:+ ":" +:+ c) value (Some a) expireSeconds).1.1
        c (Some (a +:+ ":" +:+ b)) None
    = Fulfilled (Some (Plain value)).
Proof.
  intros Ha Hup Hv.
  assert (prefixed (Some a) (b +:+ ":" +:+ c)
          = prefixed (Some (a +:+ ":" +:+ b)) c) as Hsame.
  { unfold prefixed. rewrite (orDefault_some a) by done.
    rewrite (orDefault_some (a +:+ ":" +:+ b)) by (by destruct a).
    by rewrite !append_assoc. }
  split; [done|].
  rewrite get_up by (by rewrite set_store, client_set_writes).
  rewrite <-Hsame, set_store, client_set_writes by done. cbn [fst].
  rewrite lookup_live_written by apply live_fresh.
  cbn [fmap option_fmap option_map payload].
  by rewrite truthy_nonempty.
Qed.

Lemma colon_namespace_collides_witness :
  get (T:=Empty_set)
      (set (Redis ∅ 0 true) "b:c" "v" (Some "a") None).1.1 "c" (Some "a:b") None
  = Fulfilled (Some (Plain "v")).
Proof.
  refine (proj2 (colon_namespace_collides (T:=Empty_set) (Redis ∅ 0 true)
                   "a" "b" "c" "v" None _ eq_refl _));
    discriminate.
Defined.

(** ** Expiry *)

(** [later] is the store after that many [Elapse] events. *)
Lemma run_elapse {T : Type} (seconds : nat) (w : world (T:=T)) :
  store (run w (replicate seconds Elapse)) = later seconds (store w)
  ∧ handle (run w (replicate seconds Elapse)) = handle w.
Proof.
  revert w. induction seconds as [|n IH]; intros [r h]; simpl.
  - unfold later; simpl. rewrite Nat.add_0_r. by destruct r.
  - destruct (IH (World (Redis (db r) (S (now r)) (up r)) h)) as [-> ->].
    unfold later; simpl. split; [|done]. f_equal. lia.
Qed.

Lemma lookup_live_later (r : redis) (key value : string) (e : option nat)
    (t : nat) :
  lookup_live (later t (Redis (<[key := Entry value e]> (db r)) (now r) (up r)))
              key
  = if live (now r + t) (Entry value e) then Some (Entry value e) else None.
Proof. unfold lookup_live, later; simpl. by rewrite lookup_insert_eq. Qed.

(** X6: through a working connection, a non-empty value written by [set]
    with an expiry of [s] seconds is read back by [get], and seen by
    [exists], at every moment before [s] seconds have passed; from then on
    [get] returns null and [exists] false.  Written without an expiry, it is
    read back at every later moment. *)
Theorem set_with_expiry {T : Type} (r : redis) (key value : string)
    (namespace : option string) (s : positive) (t : nat)
    (cc : option (classConstructor (T:=T))) :
  up r = true → value ≠ "" →
  let r' := (set r key value namespace (Some s)).1.1 in
  (t < Pos.to_nat s →
     get (T:=T) (later t r') key namespace None = Fulfilled (Some (Plain value))
     ∧ exists_ (later t r') key namespace = Fulfilled true)
  ∧ (Pos.to_nat s ≤ t →
       get (later t r') key namespace cc = Fulfilled None
       ∧ exists_ (later t r') key namespace = Fulfilled false)
  ∧ get (T:=T) (later t (set r key value namespace None).1.1) key namespace None
    = Fulfilled (Some (Plain value)).
Proof.
  intros Hup Hv r'. subst r'.
  rewrite !set_store, !client_set_writes by done. cbn [fst].
  rewrite !get_up, !exists_up by done.
  rewrite !lookup_live_later. unfold live; cbn [expireAt fmap option_fmap option_map].
  split; [|split].
  - intros Ht.
    assert ((now r + t <? now r + Pos.to_nat s)%nat = true) as ->
      by (apply Nat.ltb_lt; lia).
    cbn [fmap option_fmap option_map payload].
    rewrite truthy_nonempty by done. by rewrite bool_decide_eq_true_2.
  - intros Ht.
    assert ((now r + t <? now r + Pos.to_nat s)%nat = false) as ->
      by (apply Nat.ltb_ge; lia).
    split; [done|]. rewrite bool_decide_eq_false_2; [done|].
    by intros [? ?].
  - cbn [fmap option_fmap option_map payload]. by rewrite truthy_nonempty.
Qed.

Lemma set_with_expiry_witness :
  let r' := (set (Redis ∅ 0 true) "token" "abc" (Some "auth") (Some 60%positive)).1.1 in
  get (T:=Empty_set) (later 59 r') "token" (Some "auth") None
  = Fulfilled (Some (Plain "abc"))
  ∧ get (T:=Empty_set) (later 60 r') "token" (Some "auth") None
    = Fulfilled None.
Proof.
  intros r'. split.
  - refine (proj1 (proj1 (set_with_expiry (T:=Empty_set) (Redis ∅ 0 true)
                            "token" "abc" (Some "auth") 60 59 None eq_refl _) _)).
    + discriminate.
    + vm_compute. lia.
  - refine (proj1 (proj1 (proj2 (set_with_expiry (T:=Empty_set) (Redis ∅ 0 true)
                            "token" "abc" (Some "auth") 60 60 None eq_refl _)) _)).
    + discriminate.
    + vm_compute. lia.
Defined.

(** X7: a claim taken with [setIfNotExist] on a free key is exclusive until
    it expires: the first call returns true; a second call returns false and
    leaves the first value in place at every moment before the [s] seconds
    of the first have passed, and from then on returns true and installs its
    own value. *)
Theorem claim_exclusive_until_expiry {T : Type} (r : redis)
    (key v1 v2 : string) (namespace : option string) (s : positive)
    (ttl2 : option positive) (t : nat) :
  up r = true → lookup_live r (prefixed namespace key) = None →
  v1 ≠ "" → v2 ≠ "" →
  let first := setIfNotExist r key v1 namespace (Some s) in
  let second := setIfNotExist (later t first.1.1) key v2 namespace ttl2 in
  first.1.2 = Fulfilled true
  ∧ (t < Pos.to_nat s →
       second.1.2 = Fulfilled false
       ∧ get (T:=T) second.1.1 key namespace None = Fulfilled (Some (Plain v1)))
  ∧ (Pos.to_nat s ≤ t →
       second.1.2 = Fulfilled true
       ∧ get (T:=T) second.1.1 key namespace None = Fulfilled (Some (Plain v2))).
Proof.
  intros Hup Hfree Hv1 Hv2 first second.
  assert (first = (Redis (<[prefixed namespace key :=
                              Entry v1 (Some (now r + Pos.to_nat s))]> (db r))
                         (now r) (up r),
                   Fulfilled true,
                   [(keyspace (prefixed namespace key), "set");
                    (keyspace (prefixed namespace key), "expire")])) as Hfirst.
  { subst first. unfold setIfNotExist.
    by rewrite (client_set_nx_absent _ _ _ _ Hup Hfree). }
  subst second. rewrite Hfirst. cbn [fst snd].
  split; [done|].
  pose proof (lookup_live_later r (prefixed namespace key) v1
                (Some (now r + Pos.to_nat s)) t) as Hl.
  unfold live in Hl; cbn [expireAt] in Hl.
  split.
  - intros Ht.
    assert ((now r + t <? now r + Pos.to_nat s)%nat = true) as Hlt
      by (apply Nat.ltb_lt; lia).
    rewrite Hlt in Hl.
    unfold setIfNotExist.
    rewrite client_set_nx_present; [|done|by rewrite Hl].
    cbn [fst snd then_ truthy]. split; [done|].
    rewrite get_up, Hl by done. cbn [fmap option_fmap option_map payload].
    by rewrite truthy_nonempty.
  - intros Ht.
    assert ((now r + t <? now r + Pos.to_nat s)%nat = false) as Hge
      by (apply Nat.ltb_ge; lia).
    rewrite Hge in Hl.
    unfold setIfNotExist.
    rewrite client_set_nx_absent; [|done|done].
    cbn [fst snd then_ truthy]. split; [done|].
    rewrite get_up by done.
    rewrite lookup_live_written by apply live_fresh.
    cbn [fmap option_fmap option_map payload].
    by rewrite truthy_nonempty.
Qed.

Lemma claim_exclusive_until_expiry_witness :
  let first := setIfNotExist (Redis ∅ 0 true) "lock:1" "owner-A" None
                             (Some 30%positive) in
  first.1.2 = Fulfilled true
  ∧ (setIfNotExist (later 29 first.1.1) "lock:1" "owner-B" None
                   (Some 30%positive)).1.2 = Fulfilled false
  ∧ (setIfNotExist (later 30 first.1.1) "lock:1" "owner-B" None
                   (Some 30%positive)).1.2 = Fulfilled true.
Proof.
  intros first.
  assert (lookup_live (Redis ∅ 0 true) (prefixed None "lock:1") = None)
    as Hfree by reflexivity.
  assert ("owner-A" ≠ "") as HA by discriminate.
  assert ("owner-B" ≠ "") as HB by discriminate.
  pose proof (claim_exclusive_until_expiry (T:=Empty_set) (Redis ∅ 0 true)
                "lock:1" "owner-A" "owner-B" None 30 (Some 30%positive) 29
                eq_refl Hfree HA HB) as (Hfirst & Hheld & _).
  pose proof (claim_exclusive_until_expiry (T:=Empty_set) (Redis ∅ 0 true)
                "lock:1" "owner-A" "owner-B" None 30 (Some 30%positive) 30
                eq_refl Hfree HA HB) as (_ & _ & Hexpired).
  split; [exact Hfirst|]. split.
  - apply Hheld. vm_compute. lia.
  - apply Hexpired. vm_compute. lia.
Defined.

(** ** Class constructors *)

(** X8: through a working connection, after a non-empty value has been
    written, [get] and [getSync] with a class constructor return the
    instance built from exactly the string written when it parses to one,
    null when it parses to null (the stored string "null"), and fail with a
    format error, not null, when [JSON.parse] throws on it. *)
Theorem get_with_class_constructor {T : Type} (r : redis) (key value : string)
    (namespace : option string) (expireSeconds : option positive)
    (build : classConstructor (T:=T)) :
  up r = true → value ≠ "" →
  let r' := (set r key value namespace expireSeconds).1.1 in
  (∀ t, build value = Some (Some t) →
     get r' key namespace (Some build) = Fulfilled (Some (Instance t))
     ∧ getSync r' key namespace (Some build) = Returns (Some (Instance t)))
  ∧ (build value = Some None →
       get r' key namespace (Some build) = Fulfilled None
       ∧ getSync r' key namespace (Some build) = Returns None)
  ∧ (build value = None →
       get r' key namespace (Some build) = Rejected FormatError
       ∧ getSync r' key namespace (Some build) = Throws FormatError).
Proof.
  intros Hup Hv r'. subst r'.
  rewrite set_store, client_set_writes by done. cbn [fst].
  unfold getSync, get, client_get. cbv zeta.
  rewrite lookup_live_written by apply live_fresh.
  cbn [up fmap option_fmap option_map payload]. rewrite Hup.
  cbn [then_]. rewrite truthy_nonempty by done.
  split; [|split].
  - intros t Ht. by rewrite Ht.
  - intros Hnull. by rewrite Hnull.
  - intros Hnone. by rewrite Hnone.
Qed.

Lemma get_with_class_constructor_witness :
  let build : classConstructor (T:=nat) :=
    λ s, if String.eqb s "7" then Some (Some 7)
         else if String.eqb s "null" then Some None else None in
  get (set (Redis ∅ 0 true) "k" "7" (Some "ns") None).1.1 "k" (Some "ns")
      (Some build)
  = Fulfilled (Some (Instance 7))
  ∧ get (set (Redis ∅ 0 true) "k" "null" (Some "ns") None).1.1 "k" (Some "ns")
        (Some build)
    = Fulfilled None
  ∧ get (set (Redis ∅ 0 true) "k" "x" (Some "ns") None).1.1 "k" (Some "ns")
        (Some build)
    = Rejected FormatError.
Proof.
  intros build.
  assert ("7" ≠ "") as H7 by discriminate.
  assert ("null" ≠ "") as Hn by discriminate.
  assert ("x" ≠ "") as Hx by discriminate.
  split; [|split].
  - exact (proj1 (proj1 (get_with_class_constructor (Redis ∅ 0 true) "k" "7"
                           (Some "ns") None build eq_refl H7) 7 eq_refl)).
  - exact (proj1 (proj1 (proj2 (get_with_class_constructor (Redis ∅ 0 true)
                                  "k" "null" (Some "ns") None build eq_refl Hn))
                   eq_refl)).
  - exact (proj1 (proj2 (proj2 (get_with_class_constructor (Redis ∅ 0 true)
                                  "k" "x" (Some "ns") None build eq_refl Hx))
                   eq_refl)).
Defined.

(** ** [exists] against [get] *)

(** X10: whenever [get] returns a value, [exists] on the same store, key
    and namespace returns true; and when [exists] returns true while [get]
    without a class constructor returns null, the live entry holds the empty
    string. *)
Theorem get_value_implies_exists {T : Type} (r : redis) (key : string)
    (namespace : option string) (cc : option (classConstructor (T:=T)))
    (v : value T) :
  (get r key namespace cc = Fulfilled (Some v) →
   exists_ r key namespace = Fulfilled true)
  ∧ (exists_ r key namespace = Fulfilled true →
     get (T:=T) r key namespace None = Fulfilled None →
     payload <$> lookup_live r (prefixed namespace key) = Some "").
Proof.
  unfold get, exists_, client_get, client_exists.
  destruct (up r); [|split; intros [=]].
  cbn [then_].
  destruct (lookup_live r (prefixed namespace key)) as [e|]; split;
    try done.
  cbn [fmap option_fmap option_map truthy].
  intros _. destruct (String.eqb (payload e) "") eqn:E; [|done].
  apply String.eqb_eq in E. by rewrite E.
Qed.

Lemma get_value_implies_exists_witness :
  exists_ (Redis (<["ns:k" := Entry "A" None]> ∅) 0 true) "k" (Some "ns")
  = Fulfilled true.
Proof.
  exact (proj1 (get_value_implies_exists (T:=Empty_set)
                  (Redis (<["ns:k" := Entry "A" None]> ∅) 0 true) "k"
                  (Some "ns") None (Plain "A")) eq_refl).
Defined.

(** ** Who wakes a pending [onChange] *)











(** ** What one call of [onChange] costs *)

Lemma deliver_bounded {T : Type} (r : redis) (h : waitHandle (T:=T))
    (n : notification) :
  bounded h → bounded (deliver r h n).
Proof. by rewrite deliver_nothing. Qed.

Lemma fire_bounded {T : Type} (r : redis) (h : waitHandle (T:=T)) :
  bounded h → bounded (fire r h).
Proof.
  intros Hb. unfold fire.
  destruct (timer h) eqn:Ht; [|done].
  destruct (h_due h <=? now r)%nat; [|done]. simpl.
  destruct Hb as (Hsum & Hlen & Hall). rewrite Ht in Hsum.
  unfold bounded.
  unfold onTimeout, this_get, resolve, quit.
  destruct h as [k nsp c ch d s q tm rd]; simpl in *; subst.
  destruct s; simpl; repeat split; try lia;
    try (rewrite length_app; simpl; lia);
    apply Forall_app; split; try done; repeat constructor.
Qed.

Lemma publish_bounded {T : Type} (r : redis) (ns : list notification)
    (h : waitHandle (T:=T)) :
  bounded h → bounded (foldl (deliver r) h ns).
Proof.
  revert h. induction ns as [|n ns IH]; intros h Hb; simpl; [done|].
  by apply IH, deliver_bounded.
Qed.

Lemma run_bounded {T : Type} (es : list event) (w : world (T:=T)) :
  bounded (handle w) → bounded (handle (run w es)).
Proof.
  revert w. induction es as [|e es IH]; intros w Hb; simpl; [done|].
  apply IH. rewrite step_handle.
  destruct e as [c m|c| | |b]; [done|done|done|by apply fire_bounded|done].
Qed.

(** X12: whatever happens while it is pending and after, one call of
    [onChange] quits its subscriber at most twice and sends at most two
    GETs, never more GETs than quits, and every GET it sends goes to the
    storage key with the namespace prefixed twice. *)
Theorem onChange_sends_at_most_two_reads {T : Type} (r : redis) (key : string)
    (waitSeconds : nat) (namespace : option string)
    (cc : option (classConstructor (T:=T))) (es : list event) :
  let h := handle (run (started r key waitSeconds namespace cc) es) in
  quits h ≤ 2
  ∧ length (reads h) ≤ quits h
  ∧ Forall (λ k, k = orDefault namespace +:+ ":" +:+ orDefault namespace
                       +:+ ":" +:+ key) (reads h).
Proof.
  intros h.
  assert (bounded h) as (Hsum & Hlen & Hall).
  { apply run_bounded. unfold bounded; simpl. repeat split; [lia|lia|done]. }
  destruct (started_closure r key waitSeconds namespace cc es)
    as (Hk & Hn & _).
  fold h in Hk, Hn. rewrite Hk, Hn, callback_get_key in Hall.
  repeat split; [|done|done].
  destruct (timer h); lia.
Qed.

(** * Properties of the schema processor *)

Import SchemaProcessor.

(** ** Objects and loops *)

Lemma property_assign_eq (members : list (string * json)) (key : string)
    (v : json) :
  property (assign members key v) key = Some v.
Proof.
  induction members as [|[k x] rest IH]; simpl.
  - by rewrite String.eqb_refl.
  - destruct (String.eqb k key) eqn:E; simpl; by rewrite E.
Qed.

Lemma property_assign_ne (members : list (string * json)) (key key' : string)
    (v : json) :
  key ≠ key' →
  property (assign members key v) key' = property members key'.
Proof.
  intros Hne. induction members as [|[k x] rest IH]; simpl.
  - apply String.eqb_neq in Hne. by rewrite Hne.
  - destruct (String.eqb k key) eqn:E; simpl.
    + apply String.eqb_eq in E as ->.
      apply String.eqb_neq in Hne. by rewrite Hne.
    + by rewrite IH.
Qed.

Lemma assign_assign (members : list (string * json)) (key : string)
    (v v' : json) :
  assign (assign members key v) key v' = assign members key v'.
Proof.
  induction members as [|[k x] rest IH]; simpl.
  - by rewrite String.eqb_refl.
  - destruct (String.eqb k key) eqn:E; simpl; rewrite E; [done|].
    by rewrite IH.
Qed.

Lemma property_delete_eq (members : list (string * json)) (key : string) :
  property (deleteProperty members key) key = None.
Proof.
  induction members as [|[k x] rest IH]; simpl; [done|].
  destruct (String.eqb k key) eqn:E; simpl; [done|]. by rewrite E.
Qed.

Lemma property_delete_ne (members : list (string * json)) (key key' : string) :
  key ≠ key' →
  property (deleteProperty members key) key' = property members key'.
Proof.
  intros Hne. induction members as [|[k x] rest IH]; simpl; [done|].
  destruct (String.eqb k key) eqn:E; simpl.
  - apply String.eqb_eq in E as ->.
    apply String.eqb_neq in Hne. by rewrite Hne.
  - by rewrite IH.
Qed.

Lemma forEach_cons {A : Type} (f : A → option A) (x : A) (l : list A) :
  forEach f (x :: l)
  = match f x with
    | Some x' =>
        match forEach f l with
        | Some l' => Some (x' :: l')
        | None => None
        end
    | None => None
    end.
Proof. reflexivity. Qed.

Lemma forEach_throws {A : Type} (f : A → option A) (x : A) (l : list A) :
  x ∈ l → f x = None → forEach f l = None.
Proof.
  intros Hin Hx. induction Hin as [x l|x y l Hin IH]; rewrite forEach_cons.
  - by rewrite Hx.
  - rewrite (IH Hx). by destruct (f y).
Qed.

Lemma forEach_fmap {A : Type} (f : A → option A) (g : A → A) (l : list A) :
  Forall (λ x, f x = Some (g x)) l → forEach f l = Some (g <$> l).
Proof.
  induction 1 as [|x l Hx _ IH]; [done|].
  by rewrite forEach_cons, Hx, IH.
Qed.

Lemma processNode_array (items : list json) :
  processNode (JArray items) = JArray <$> forEach visit items.
Proof. reflexivity. Qed.

Lemma processNode_object (members : list (string * json)) :
  processNode (JObject members)
  = if from_option truthyValue false (property members "enum") then
      match property members "enum" ≫= spread with
      | Some names =>
          match forEach tsEnumName names with
          | Some names' =>
              Some (JObject (assign members "tsEnumNames" (JArray names')))
          | None => None
          end
      | None => None
      end
    else JObject <$> forEach visitMember members.
Proof. reflexivity. Qed.

(** ** X13: a null in the schema *)

(** X13: [processNode] throws on a schema that holds a null where it
    descends.  A failure of a member's subtree is a failure of the object,
    unless the object has a truthy ['enum'] (then its members are not
    visited); so an object without ['enum'] that has a null member fails,
    and so does an array with a null item. *)
Theorem processNode_throws_on_null (members : list (string * json))
    (items : list json) (key : string) (v : json) :
  (from_option truthyValue false (property members "enum") = false →
   (key, v) ∈ members → isObject v = true → processNode v = None →
   processNode (JObject members) = None)
  ∧ (property members "enum" = None → (key, JNull) ∈ members →
     processNode (JObject members) = None)
  ∧ (JNull ∈ items → processNode (JArray items) = None).
Proof.
  assert (from_option truthyValue false (property members "enum") = false →
          (key, v) ∈ members → isObject v = true → processNode v = None →
          processNode (JObject members) = None) as Hsub.
  { intros Henum Hin Hobj Hv. rewrite processNode_object, Henum.
    rewrite (forEach_throws visitMember (key, v)); [done|done|].
    unfold visitMember; simpl. by rewrite Hobj, Hv. }
  split; [exact Hsub|]. split.
  - intros Henum Hin. rewrite processNode_object, Henum. simpl.
    by rewrite (forEach_throws visitMember (key, JNull)).
  - intros Hin. rewrite processNode_array.
    by rewrite (forEach_throws visit JNull).
Qed.

Lemma processNode_throws_on_null_witness :
  processNode (JObject [("type", JString "string"); ("default", JNull)]) = None
  ∧ processNode (JArray [JNumber 1; JNull]) = None.
Proof.
  destruct (processNode_throws_on_null
              [("type", JString "string"); ("default", JNull)]
              [JNumber 1; JNull] "default" JNull) as (_ & Hobject & Harray).
  split.
  - apply Hobject; [reflexivity|].
    apply list_elem_of_further, list_elem_of_here.
  - apply Harray. apply list_elem_of_further, list_elem_of_here.
Defined.

(** ** X14: the enum names *)

Lemma replaceAll_length (s : string) (pattern replacement : ascii) :
  String.length (replaceAll s pattern replacement) = String.length s.
Proof. induction s as [|c s IH]; simpl; [done|]. by rewrite IH. Qed.

Lemma renamed_clean (s : string) :
  clean (replaceAll (replaceAll s "." "_") "-" "_") = true.
Proof.
  induction s as [|c s IH]; simpl; [done|]. rewrite IH.
  destruct (Ascii.eqb c ".") eqn:E1; simpl; [done|].
  destruct (Ascii.eqb c "-") eqn:E2; simpl; [done|].
  by rewrite E1, E2.
Qed.

Lemma clean_kept (s : string) :
  clean s = true → replaceAll (replaceAll s "." "_") "-" "_" = s.
Proof.
  induction s as [|c s IH]; simpl; [done|].
  intros H. apply andb_true_iff in H as [H Hs].
  apply andb_true_iff in H as [H1 H2].
  apply negb_true_iff in H1, H2. rewrite H1, H2, IH; done.
Qed.

(** X14: on an object whose ['enum'] is an array of strings, [processNode]
    succeeds without visiting the members, and sets ['tsEnumNames'] to the
    names with every dot and dash replaced by an underscore: as many names,
    in the same order and of the same lengths, none with a dot or a dash,
    and a name that had neither is kept as it is.  Every other member of the
    object reads as before. *)
Theorem processNode_enum_names (members : list (string * json))
    (names : list string) :
  property members "enum" = Some (JArray (JString <$> names)) →
  let renamed := (λ s, replaceAll (replaceAll s "." "_") "-" "_") <$> names in
  let members' := assign members "tsEnumNames" (JArray (JString <$> renamed)) in
  processNode (JObject members) = Some (JObject members')
  ∧ property members' "tsEnumNames" = Some (JArray (JString <$> renamed))
  ∧ (∀ key, key ≠ "tsEnumNames" → property members' key = property members key)
  ∧ length renamed = length names
  ∧ Forall (λ s, clean s = true) renamed
  ∧ (∀ i s, names !! i = Some s →
       ∃ s', renamed !! i = Some s'
             ∧ String.length s' = String.length s
             ∧ (clean s = true → s' = s)).
Proof.
  intros Henum renamed members'.
  split; [|split; [|split; [|split; [|split]]]].
  - rewrite processNode_object, Henum. simpl.
    assert (forEach tsEnumName (JString <$> names) = Some (JString <$> renamed))
      as ->; [|done].
    subst renamed. clear. induction names as [|s names IH]; [done|].
    rewrite !fmap_cons, forEach_cons. simpl. by rewrite IH.
  - apply property_assign_eq.
  - intros key Hkey. by apply property_assign_ne.
  - subst renamed. by rewrite length_fmap.
  - subst renamed. apply Forall_fmap, Forall_forall. intros s _.
    apply renamed_clean.
  - intros i s Hi. exists (replaceAll (replaceAll s "." "_") "-" "_").
    split; [|split].
    + subst renamed. by rewrite list_lookup_fmap, Hi.
    + by rewrite !replaceAll_length.
    + apply clean_kept.
Qed.

Lemma processNode_enum_names_witness :
  processNode
    (JObject [("type", JString "string");
              ("enum", JArray [JString "ISO15118-2"; JString "Power.Active";
                               JString "Idle"])])
  = Some
      (JObject [("type", JString "string");
                ("enum", JArray [JString "ISO15118-2"; JString "Power.Active";
                                 JString "Idle"]);
                ("tsEnumNames",
                 JArray [JString "ISO15118_2"; JString "Power_Active";
                         JString "Idle"])]).
Proof.
  exact (proj1 (processNode_enum_names
                  [("type", JString "string");
                   ("enum", JArray [JString "ISO15118-2";
                                    JString "Power.Active"; JString "Idle"])]
                  ["ISO15118-2"; "Power.Active"; "Idle"] eq_refl)).
Defined.

(** ** X15: running [processNode] again *)

Lemma processNode_shape (v v' : json) :
  processNode v = Some v' → isObject v' = isObject v.
Proof.
  destruct v as [|b|n|s|items|members].
  - by intros [=].
  - by intros [= <-].
  - by intros [= <-].
  - by intros [= <-].
  - rewrite processNode_array. by destruct (forEach visit items); intros [= <-].
  - rewrite processNode_object.
    destruct (from_option truthyValue false (property members "enum")).
    + destruct (property members "enum" ≫= spread) as [names|]; [|done].
      by destruct (forEach tsEnumName names); intros [= <-].
    + by destruct (forEach visitMember members); intros [= <-].
Qed.

Lemma forEach_again {A : Type} (f : A → option A) (l l' : list A) :
  Forall (λ x, ∀ x', f x = Some x' → f x' = Some x') l →
  forEach f l = Some l' → forEach f l' = Some l'.
Proof.
  intros Hall. revert l'. induction Hall as [|x l Hx _ IH]; intros l'.
  - by intros [= <-].
  - rewrite forEach_cons.
    destruct (f x) as [x'|] eqn:Hfx; [|done].
    destruct (forEach f l) as [rest'|] eqn:Hrest; [|done].
    intros [= <-]. by rewrite forEach_cons, (Hx x' eq_refl), (IH rest' eq_refl).
Qed.

Lemma visit_again (v : json) :
  (∀ v', processNode v = Some v' → processNode v' = Some v') →
  ∀ v', visit v = Some v' → visit v' = Some v'.
Proof.
  intros IH v'. unfold visit.
  destruct (isObject v) eqn:Hobj.
  - intros Hv. by rewrite (processNode_shape _ _ Hv), Hobj, (IH _ Hv).
  - intros [= <-]. by rewrite Hobj.
Qed.

Lemma visitMember_visit (m m' : string * json) :
  visitMember m = Some m' ↔ m'.1 = m.1 ∧ visit m.2 = Some m'.2.
Proof.
  destruct m as [k v], m' as [k' v']. unfold visitMember, visit; simpl.
  destruct (isObject v).
  - destruct (processNode v) as [x|]; simpl; [|by split; [|intros [_ ?]]].
    split; [by intros [= <- <-]|by intros [<- [= <-]]].
  - split; [by intros [= <- <-]|by intros [<- [= <-]]].
Qed.

Lemma visitMember_again (m : string * json) :
  (∀ v', processNode m.2 = Some v' → processNode v' = Some v') →
  ∀ m', visitMember m = Some m' → visitMember m' = Some m'.
Proof.
  intros IH m' Hm. apply visitMember_visit in Hm as [Hk Hv].
  apply visitMember_visit. split; [done|]. by apply (visit_again m.2).
Qed.

(** After the loop over the members, each key holds its visited value. *)
Lemma property_visited (members members' : list (string * json))
    (key : string) :
  forEach visitMember members = Some members' →
  property members' key = property members key ≫= visit.
Proof.
  revert members'. induction members as [|m rest IH]; intros members'.
  - by intros [= <-].
  - rewrite forEach_cons.
    destruct (visitMember m) as [m'|] eqn:Hm; [|done].
    destruct (forEach visitMember rest) as [rest'|] eqn:Hrest; [|done].
    intros [= <-]. apply visitMember_visit in Hm as [Hk Hv].
    destruct m as [k v], m' as [k' v']; simpl in *. subst k'.
    destruct (String.eqb k key); [done|]. by apply IH.
Qed.

Lemma falsy_stays_falsy (e : option json) :
  from_option truthyValue false e = false →
  from_option truthyValue false (e ≫= visit) = false.
Proof. by destruct e as [[|b|n|s|items|members]|]. Qed.

Lemma processNode_idem_aux (v v' : json) :
  processNode v = Some v' → processNode v' = Some v'.
Proof.
  revert v'. induction v as [|b|n|s|items IH|members IH] using json_ind;
    intros v'.
  - done.
  - by intros [= <-].
  - by intros [= <-].
  - by intros [= <-].
  - rewrite processNode_array.
    destruct (forEach visit items) as [items'|] eqn:Hitems; [|done].
    intros [= <-]. rewrite processNode_array.
    rewrite (forEach_again visit items items'); [done| |done].
    eapply Forall_impl; [exact IH|]. intros x Hx. by apply visit_again.
  - rewrite processNode_object.
    destruct (from_option truthyValue false (property members "enum"))
      eqn:Henum.
    + destruct (property members "enum" ≫= spread) as [names|] eqn:Hnames;
        [|done].
      destruct (forEach tsEnumName names) as [names'|] eqn:Hrenamed; [|done].
      intros [= <-]. rewrite processNode_object.
      rewrite property_assign_ne by done.
      by rewrite Henum, Hnames, Hrenamed, assign_assign.
    + destruct (forEach visitMember members) as [members'|] eqn:Hmembers;
        [|done].
      intros [= <-]. rewrite processNode_object.
      rewrite (property_visited members members' "enum" Hmembers).
      rewrite (falsy_stays_falsy _ Henum).
      rewrite (forEach_again visitMember members members'); [done| |done].
      eapply Forall_impl; [exact IH|]. intros m Hm.
      by apply visitMember_again.
Qed.

(** X15: [processNode] is idempotent: on the tree it has produced it
    succeeds and changes nothing more. *)
Theorem processNode_idempotent (v v' : json) :
  processNode v = Some v' → processNode v' = Some v'.
Proof. apply processNode_idem_aux. Qed.

Lemma processNode_idempotent_witness :
  processNode
    (JObject [("a", JObject [("enum", JArray [JString "A-B"]);
                             ("tsEnumNames", JArray [JString "A_B"])]);
              ("b", JArray [JNumber 1])])
  = Some
      (JObject [("a", JObject [("enum", JArray [JString "A-B"]);
                               ("tsEnumNames", JArray [JString "A_B"])]);
                ("b", JArray [JNumber 1])]).
Proof.
  apply (processNode_idempotent
           (JObject [("a", JObject [("enum", JArray [JString "A-B"])]);
                     ("b", JArray [JNumber 1])])).
  reflexivity.
Defined.

(** ** X16: the short id *)

Lemma append_cons (c : ascii) (a b : string) :
  String c a +:+ b = String c (a +:+ b).
Proof. reflexivity. Qed.

(** [split] undoes a join: the segments have no separator in them and,
    joined by colons, give the string back. *)
Lemma split_join (s : string) :
  ∃ init id,
    split s ":" = init ++ [id]
    ∧ Forall (λ seg, colonFree seg = true) init
    ∧ colonFree id = true
    ∧ s = foldr (λ seg rest, seg +:+ ":" +:+ rest) id init.
Proof.
  induction s as [|c s (init & id & Hsplit & Hinit & Hid & Hs)].
  - by exists [], "".
  - simpl. destruct (Ascii.eqb c ":") eqn:Hc.
    + apply Ascii.eqb_eq in Hc as ->.
      exists ("" :: init), id. rewrite Hsplit.
      split_and!; [done|by constructor|done|]. simpl. by rewrite <-Hs.
    + rewrite Hsplit. destruct init as [|seg init]; simpl.
      * exists [], (String c id). simpl in Hs. subst s.
        split_and!; [done|done| |done]. simpl. by rewrite Hc, Hid.
      * exists (String c seg :: init), id.
        apply Forall_cons in Hinit as [Hseg Hinit]. simpl in Hs. subst s.
        split_and!; [done| |done|by rewrite append_cons].
        constructor; [|done]. simpl. by rewrite Hc, Hseg.
Qed.

Lemma split_colonFree (s : string) : colonFree s = true → split s ":" = [s].
Proof.
  induction s as [|c s IH]; [done|]. simpl.
  intros H. apply andb_true_iff in H as [Hc Hs].
  apply negb_true_iff in Hc. by rewrite Hc, (IH Hs).
Qed.

(** X16: the id of a schema is what follows the last colon of its ['$id']:
    ['$id'] is the id preceded by colon-terminated segments, the id has no
    colon in it, and an ['$id'] without a colon is the id.  When ['$id'] is
    missing or is not a string, taking the id throws. *)
Theorem schemaId_last_segment (members : list (string * json)) :
  (∀ s, property members "$id" = Some (JString s) →
     ∃ init id,
       schemaId (JObject members) = Some id
       ∧ s = foldr (λ seg rest, seg +:+ ":" +:+ rest) id init
       ∧ colonFree id = true
       ∧ (colonFree s = true → id = s))
  ∧ ((∀ s, property members "$id" ≠ Some (JString s)) →
     schemaId (JObject members) = None).
Proof.
  split.
  - intros s Hid. destruct (split_join s) as (init & id & Hsplit & _ & Hfree & Hs).
    exists init, id. unfold schemaId. rewrite Hid, Hsplit, last_snoc.
    split_and!; [done|done|done|].
    intros Hcolon. rewrite (split_colonFree s Hcolon) in Hsplit.
    destruct init as [|seg [|seg' init]]; simplify_eq/=; done.
  - intros Hnot. unfold schemaId.
    destruct (property members "$id") as [[|b|n|s|items|ms]|]; try done.
    by destruct (Hnot s).
Qed.

Lemma schemaId_last_segment_witness :
  ∃ init id,
    schemaId (JObject [("$id", JString "urn:OCPP:Cp:2:2020:3:NotifyReportRequest")])
    = Some id
    ∧ "urn:OCPP:Cp:2:2020:3:NotifyReportRequest"
      = foldr (λ seg rest, seg +:+ ":" +:+ rest) id init
    ∧ colonFree id = true.
Proof.
  destruct (proj1 (schemaId_last_segment
                     [("$id", JString "urn:OCPP:Cp:2:2020:3:NotifyReportRequest")])
              "urn:OCPP:Cp:2:2020:3:NotifyReportRequest" eq_refl)
    as (init & id & Hid & Hjoin & Hfree & _).
  by exists init, id.
Defined.

(** ** X17: the schema that is written out *)

(** X17: when the first steps of [processJsonSchema] succeed, the schema
    handed on is an object whose ['$id'] is the short id, without a colon,
    and which has no ['$schema'] member; taking its id again gives the same
    id, and [processNode] leaves it as it is. *)
Theorem preprocess_result (jsonSchema processed : json) (id : string) :
  preprocess jsonSchema = Some (id, processed) →
  ∃ members',
    processed = JObject members'
    ∧ property members' "$id" = Some (JString id)
    ∧ property members' "$schema" = None
    ∧ colonFree id = true
    ∧ schemaId processed = Some id
    ∧ processNode processed = Some processed.
Proof.
  destruct jsonSchema as [|b|n|s|items|members]; try done.
  unfold preprocess.
  destruct (schemaId (JObject members)) as [id'|] eqn:Hid; [|done].
  set (prepared := deleteProperty (assign members "$id" (JString id')) "$schema").
  destruct (processNode (JObject prepared)) as [out|] eqn:Hout; [|done].
  intros [= -> ->].
  assert (colonFree id = true) as Hfree.
  { unfold schemaId in Hid.
    destruct (property members "$id") as [[|b|n|s|items|ms]|]; try done.
    destruct (split_join s) as (init & id0 & Hsplit & _ & Hfree & _).
    rewrite Hsplit, last_snoc in Hid. by injection Hid as <-. }
  assert (property prepared "$id" = Some (JString id)) as Hpid.
  { subst prepared. rewrite property_delete_ne by done.
    apply property_assign_eq. }
  assert (property prepared "$schema" = None) as Hpschema
    by apply property_delete_eq.
  pose proof (processNode_idem_aux _ _ Hout) as Hagain.
  rewrite processNode_object in Hout.
  assert (∃ members', processed = JObject members'
                      ∧ property members' "$id" = Some (JString id)
                      ∧ property members' "$schema" = None)
    as (members' & -> & Hid' & Hschema').
  { destruct (from_option truthyValue false (property prepared "enum")).
    - destruct (property prepared "enum" ≫= spread) as [names|]; [|done].
      destruct (forEach tsEnumName names) as [names'|]; [|done].
      injection Hout as <-. eexists. split; [done|].
      by rewrite !property_assign_ne.
    - destruct (forEach visitMember prepared) as [members'|] eqn:Hm; [|done].
      injection Hout as <-. exists members'. split; [done|].
      rewrite !(property_visited prepared members' _ Hm).
      by rewrite Hpid, Hpschema. }
  exists members'. split_and!; try done.
  unfold schemaId. by rewrite Hid', (split_colonFree id Hfree).
Qed.

Lemma preprocess_result_witness :
  ∃ members',
    property members' "$id" = Some (JString "BootRequest")
    ∧ property members' "$schema" = None.
Proof.
  destruct (preprocess_result
              (JObject [("$schema", JString "http://json-schema.org/draft-06/schema#");
                        ("$id", JString "urn:OCPP:Cp:2:2020:3:BootRequest");
                        ("type", JString "object")])
              (JObject [("$id", JString "BootRequest");
                        ("type", JString "object")])
              "BootRequest" eq_refl)
    as (members' & _ & Hid & Hschema & _).
  by exists members'.
Defined.

(** ** X18: sorting the definitions *)

Lemma lookup_setKey (map : gmap string string) (key v k : string) :
  setKey map key v !! k
  = if bool_decide (k = key ∧ key ≠ "__proto__") then Some v else map !! k.
Proof.
  unfold setKey. destruct (String.eqb key "__proto__") eqn:Hkey.
  - apply String.eqb_eq in Hkey.
    rewrite bool_decide_eq_false_2; [done|]. by intros [_ ?].
  - apply String.eqb_neq in Hkey.
    destruct (decide (k = key)) as [->|Hne].
    + by rewrite lookup_insert_eq, bool_decide_eq_true_2.
    + rewrite lookup_insert_ne by done.
      rewrite bool_decide_eq_false_2; [done|]. by intros [? _].
Qed.

Lemma collect_loop (id : string) (keys : list string)
    (acc : gmap string string * list string) :
  let res := foldl (λ acc key,
                      if negb (includes key "EnumType")
                      then (setKey acc.1 key id, acc.2)
                      else (acc.1, acc.2 ++ [key])) acc keys in
  res.2 = acc.2 ++ filter (λ k, includes k "EnumType" = true) keys
  ∧ ∀ k, res.1 !! k
         = if bool_decide (k ≠ "__proto__"
                           ∧ k ∈ keys ∧ includes k "EnumType" = false)
           then Some id else acc.1 !! k.
Proof.
  revert acc. induction keys as [|key keys IH]; intros acc; cbn [foldl].
  - split; [by rewrite filter_nil, app_nil_r|]. intros k.
    rewrite bool_decide_eq_false_2; [done|]. intros (_ & Hin & _).
    by apply not_elem_of_nil in Hin.
  - destruct (includes key "EnumType") eqn:Hkey; cbn [negb].
    + destruct (IH (acc.1, acc.2 ++ [key])) as [Hlist Hmap].
      cbn [fst snd] in Hlist, Hmap.
      split.
      * rewrite Hlist, filter_cons_True by done. by rewrite <-app_assoc.
      * intros k. rewrite Hmap.
        rewrite (bool_decide_ext
                   (k ≠ "__proto__"
                    ∧ k ∈ key :: keys ∧ includes k "EnumType" = false)
                   (k ≠ "__proto__"
                    ∧ k ∈ keys ∧ includes k "EnumType" = false)); [done|].
        rewrite elem_of_cons. split; [|tauto].
        intros (Hp & [->|Hin] & Hk); [congruence|done].
    + destruct (IH (setKey acc.1 key id, acc.2)) as [Hlist Hmap].
      cbn [fst snd] in Hlist, Hmap.
      split.
      * rewrite Hlist, filter_cons_False; [done|]. by rewrite Hkey.
      * intros k. rewrite Hmap, lookup_setKey.
        destruct (decide (k ≠ "__proto__"
                          ∧ k ∈ keys ∧ includes k "EnumType" = false))
          as [Hin|Hout].
        { rewrite !bool_decide_eq_true_2; [done| |done].
          destruct Hin as (? & ? & ?).
          split_and!; [done|by apply list_elem_of_further|done]. }
        rewrite (bool_decide_eq_false_2 _ Hout).
        destruct (decide (k = key ∧ key ≠ "__proto__")) as [[-> Hp]|Hne].
        { rewrite !bool_decide_eq_true_2; [done| |done].
          split_and!; [done|apply list_elem_of_here|done]. }
        rewrite (bool_decide_eq_false_2 _ Hne).
        rewrite bool_decide_eq_false_2; [done|].
        rewrite elem_of_cons. intros (Hp & [->|Hin] & Hk).
        -- by apply Hne.
        -- by apply Hout.
Qed.

(** X18: [collectDefinitions] sorts the keys of the schema's
    ['definitions'], in the order they are visited: the keys that contain
    "EnumType" make up the enum list, in that order; every other key, and
    the schema's own id, is mapped to the id, except the key "__proto__",
    which an assignment does not store; nothing else is mapped.  Without
    ['definitions'] the map holds at most the id and the enum list is
    empty. *)
Theorem collectDefinitions_partition (members : list (string * json))
    (id : string) :
  let keys := forIn (property members "definitions") in
  ∃ definitions enumDefinitions,
    collectDefinitions (JObject members) id
    = Some (definitions, enumDefinitions)
    ∧ enumDefinitions = filter (λ k, includes k "EnumType" = true) keys
    ∧ (∀ k, definitions !! k
            = if bool_decide
                   (k ≠ "__proto__"
                    ∧ (k = id ∨ (k ∈ keys ∧ includes k "EnumType" = false)))
              then Some id else None)
    ∧ definitions !! "__proto__" = None
    ∧ (property members "definitions" = None →
       definitions = mapFromId id ∧ enumDefinitions = []).
Proof.
  intros keys. unfold collectDefinitions. fold keys.
  destruct (collect_loop id keys (mapFromId id, [])) as [Hlist Hmap].
  simpl in Hlist, Hmap.
  match type of Hlist with (?res).2 = _ => exists res.1, res.2 end.
  split; [by rewrite <-surjective_pairing|]. split; [exact Hlist|].
  assert (∀ k, (foldl (λ acc key,
                         if negb (includes key "EnumType")
                         then (setKey acc.1 key id, acc.2)
                         else (acc.1, acc.2 ++ [key]))
                      (mapFromId id, []) keys).1 !! k
               = if bool_decide
                      (k ≠ "__proto__"
                       ∧ (k = id ∨ (k ∈ keys ∧ includes k "EnumType" = false)))
                 then Some id else None) as Hall.
  { intros k. rewrite Hmap. unfold mapFromId. rewrite lookup_setKey.
    rewrite lookup_empty.
    destruct (decide (k ≠ "__proto__"
                      ∧ k ∈ keys ∧ includes k "EnumType" = false))
      as [Hin|Hout].
    { rewrite !bool_decide_eq_true_2; [done| |done].
      destruct Hin as (? & ? & ?). split; [done|]. by right. }
    rewrite (bool_decide_eq_false_2 _ Hout).
    destruct (decide (k = id ∧ id ≠ "__proto__")) as [[-> Hp]|Hne].
    { rewrite !bool_decide_eq_true_2; [done| |done]. split; [done|by left]. }
    rewrite (bool_decide_eq_false_2 _ Hne).
    rewrite bool_decide_eq_false_2; [done|].
    intros (Hp & [->|[Hin Hk]]); [by apply Hne|by apply Hout]. }
  split; [exact Hall|]. split.
  - rewrite Hall. rewrite bool_decide_eq_false_2; [done|]. by intros [? _].
  - intros Hnone. subst keys. by rewrite Hnone.
Qed.
